(** * 9cc: a compiler for arithmetic expressions (lexer, parser, code generator)

    Shallow embedding of [9cc.c] and verification of its specification.

    Conventions of the embedding:
    - a [char *] into the NUL-terminated input buffer is the rest of the
      buffer from that address on ([cstring]); [*p] is its head, [p++] its
      tail, and the pointer difference [loc - user_input] is the difference
      of the two lengths;
    - the linked list of tokens is a [list Token], the [next] field being the
      tail; [NULL] is the empty list;
    - the global [user_input] is a section variable, the global cursor
      [token] is the state threaded by the parser monad [M];
    - [while] loops and the recursion of the parser take fuel; [OutOfFuel]
      is a result of the model only, and is proved unreachable with enough
      fuel;
    - [printf] of an assembly line appends one [Asm] to the output. *)

From Stdlib Require Import String Ascii List Sorted ZArith NArith Bool Arith Lia.
Import ListNotations.
Local Open Scope Z_scope.

(** ** The C library functions the program calls *)

Definition cstring := list ascii.

Definition NUL : ascii := Ascii.zero.

(** [*p]: the byte at [p]; the buffer ends with the terminating NUL. *)
Definition deref (p : cstring) : ascii := hd NUL p.

(** [isspace] in the "C" locale: space, \t, \n, \v, \f, \r. *)
Definition isspace (c : ascii) : bool :=
  let n := N_of_ascii c in
  ((n =? 32) || ((9 <=? n) && (n <=? 13)))%N.

(** [isdigit]: '0' .. '9'. *)
Definition isdigit (c : ascii) : bool :=
  let n := N_of_ascii c in
  ((48 <=? n) && (n <=? 57))%N.

(** [strchr(s, c) != NULL]; the terminating NUL of [s] is part of the
    string, so [strchr(s, 0)] finds it. *)
Fixpoint strchr (s : cstring) (c : ascii) : bool :=
  match s with
  | [] => Ascii.eqb c NUL
  | x :: s' => Ascii.eqb x c || strchr s' c
  end.

Definition LONG_MAX : Z := 2 ^ 63 - 1.
Definition INT_MAX : Z := 2 ^ 31 - 1.
Definition INT_MIN : Z := - 2 ^ 31.

Definition digit_val (c : ascii) : Z := Z.of_N (N_of_ascii c) - 48.

(** The digits of [strtol(p, &endptr, 10)]: the longest run of digits at [p]
    is consumed, whatever its value. *)
Fixpoint strtol_digits (acc : Z) (p : cstring) : Z * cstring :=
  match p with
  | c :: p' =>
      if isdigit c then strtol_digits (10 * acc + digit_val c) p'
      else (acc, p)
  | [] => (acc, p)
  end.

(** [strtol(p, &endptr, 10)] where [*p] is a digit (the only call of the
    program): no leading white space and no sign; a value above [LONG_MAX]
    is clamped to [LONG_MAX]. Returns the value and [endptr]. *)
Definition strtol (p : cstring) : Z * cstring :=
  let (v, endptr) := strtol_digits 0 p in
  (if v >? LONG_MAX then LONG_MAX else v, endptr).

(** Conversion of a [long] to [int] on assignment ([cur->val = strtol(..)]):
    the low 32 bits, read as two's complement. *)
Definition int_of_long (z : Z) : Z := (z + 2 ^ 31) mod 2 ^ 32 - 2 ^ 31.

(** ** Tokens *)

Inductive TokenKind : Type :=
| TK_RESERVED
| TK_NUM
| TK_EOF.

Definition TokenKind_eqb (a b : TokenKind) : bool :=
  match a, b with
  | TK_RESERVED, TK_RESERVED | TK_NUM, TK_NUM | TK_EOF, TK_EOF => true
  | _, _ => false
  end.

(** [struct Token]; the field [next] is the tail of the list the token is
    in. *)
Record Token : Type := mkToken {
  kind : TokenKind;
  val : Z;
  str : cstring
}.

(** ** Results, [error_at] *)

(** The three format strings passed to [error_at]. *)
Inductive Message : Type :=
| NotChar (op : ascii)   (* "'%c'ではありません" *)
| NotNumber              (* "数ではありません" *)
| CannotTokenize.        (* "トークナイズ出来ません" *)

Inductive result (A : Type) : Type :=
| OK (a : A)
| Exit1 (pos : Z) (msg : Message)  (* error_at: diagnostic at [pos], exit(1) *)
| NullDeref                        (* [token->...] with [token == NULL] *)
| OutOfFuel.

Arguments OK {A} a.
Arguments Exit1 {A} pos msg.
Arguments NullDeref {A}.
Arguments OutOfFuel {A}.

(** The parser's monad: the state is the global cursor [token]. *)
Definition M (A : Type) : Type := list Token -> result (A * list Token).

Definition ret {A} (a : A) : M A := fun token => OK (a, token).

Definition bind {A B} (m : M A) (f : A -> M B) : M B :=
  fun token =>
    match m token with
    | OK (a, token') => f a token'
    | Exit1 pos msg => Exit1 pos msg
    | NullDeref => NullDeref
    | OutOfFuel => OutOfFuel
    end.

Notation "x <- m ;; k" := (bind m (fun x => k))
  (at level 61, m at next level, right associativity).

Definition out_of_fuel {A} : M A := fun _ => OutOfFuel.

(** ** AST nodes *)

Inductive NodeKind : Type :=
| ND_ADD
| ND_SUB
| ND_MUL
| ND_DIV
| ND_NUM.

(** [struct Node]. The program builds nodes with [new_num] and [new_binary]
    only: [NumNode v] is [{ND_NUM, NULL, NULL, v}] and [BinNode k l r] is
    [{k, l, r, 0}] (the fields left at zero by [calloc]). *)
Inductive Node : Type :=
| NumNode (v : Z)
| BinNode (k : NodeKind) (lhs rhs : Node).

Definition new_binary (k : NodeKind) (lhs rhs : Node) : Node := BinNode k lhs rhs.

Definition new_num (v : Z) : Node := NumNode v.

(** ** Assembly output *)

(** The lines [main] and [gen] print. *)
Inductive Asm : Type :=
| IntelSyntax      (* ".intel_syntax noprefix" *)
| GlobalMain       (* ".global main" *)
| LabelMain        (* "main:" *)
| PushImm (v : Z)  (* "    push %d" *)
| PopRdi           (* "    pop rdi" *)
| PopRax           (* "    pop rax" *)
| AddRaxRdi        (* "    add rax, rdi" *)
| SubRaxRdi        (* "    sub rax, rdi" *)
| ImulRaxRdi       (* "    imul rax, rdi" *)
| Cqo              (* "    cqo" *)
| IdivRdi          (* "    idiv rdi" *)
| PushRax          (* "    push rax" *)
| Ret.             (* "	ret " *)

(** [gen]: post-order walk. A node of kind [ND_NUM] prints its [val] and
    returns, whatever its children. *)
Fixpoint gen (node : Node) : list Asm :=
  match node with
  | NumNode v => [PushImm v]
  | BinNode ND_NUM _ _ => [PushImm 0]
  | BinNode k lhs rhs =>
      gen lhs ++ gen rhs ++
      [PopRdi; PopRax] ++
      match k with
      | ND_ADD => [AddRaxRdi]
      | ND_SUB => [SubRaxRdi]
      | ND_MUL => [ImulRaxRdi]
      | ND_DIV => [Cqo; IdivRdi]
      | ND_NUM => []
      end ++
      [PushRax]
  end.

Section Compiler.

(** The global [char *user_input]. *)
Variable user_input : cstring.

(** [error_at(loc, fmt, ...)]: [pos = loc - user_input], the diagnostic goes
    to stderr, [exit(1)]. *)
Definition error_at {A} (loc : cstring) (msg : Message) : result A :=
  Exit1 (Z.of_nat (length user_input) - Z.of_nat (length loc)) msg.

(** *** Cursor operations *)

Definition consume (op : ascii) : M bool := fun token =>
  match token with
  | [] => NullDeref
  | tok :: next =>
      if negb (TokenKind_eqb (kind tok) TK_RESERVED)
         || negb (Ascii.eqb (deref (str tok)) op)
      then OK (false, token)
      else OK (true, next)
  end.

Definition expect (op : ascii) : M unit := fun token =>
  match token with
  | [] => NullDeref
  | tok :: next =>
      if negb (TokenKind_eqb (kind tok) TK_RESERVED)
         || negb (Ascii.eqb (deref (str tok)) op)
      then error_at (str tok) (NotChar op)
      else OK (tt, next)
  end.

Definition expect_number : M Z := fun token =>
  match token with
  | [] => NullDeref
  | tok :: next =>
      if negb (TokenKind_eqb (kind tok) TK_NUM)
      then error_at (str tok) NotNumber
      else OK (val tok, next)
  end.

Definition at_eof : M bool := fun token =>
  match token with
  | [] => NullDeref
  | tok :: _ => OK (TokenKind_eqb (kind tok) TK_EOF, token)
  end.

(** *** Lexer *)

(** [new_token(kind, cur, str)]: a zeroed token with [kind] and [str]; being
    linked after [cur] is its place in the list. *)
Definition new_token (k : TokenKind) (s : cstring) : Token := mkToken k 0 s.

(** The loop of [tokenize], from the position [p]; the result is the list
    of the tokens linked from here on. *)
Fixpoint tokenize_loop (fuel : nat) (p : cstring) : result (list Token) :=
  match fuel with
  | O => OutOfFuel
  | S fuel' =>
      if Ascii.eqb (deref p) NUL then OK [new_token TK_EOF p]
      else if isspace (deref p) then tokenize_loop fuel' (tl p)
      else if strchr (list_ascii_of_string "+-*/()") (deref p) then
        match tokenize_loop fuel' (tl p) with
        | OK rest => OK (new_token TK_RESERVED p :: rest)
        | e => e
        end
      else if isdigit (deref p) then
        let (v, endptr) := strtol p in
        match tokenize_loop fuel' endptr with
        | OK rest => OK (mkToken TK_NUM (int_of_long v) p :: rest)
        | e => e
        end
      else error_at p CannotTokenize
  end.

Definition tokenize (fuel : nat) : result (list Token) :=
  tokenize_loop fuel user_input.

(** *** Parser *)

(** The [while (true)] of [expr]; [mul] is the callee, [k] bounds the
    number of iterations. *)
Fixpoint expr_loop (mul : M Node) (k : nat) (node : Node) : M Node :=
  match k with
  | O => out_of_fuel
  | S k' =>
      plus <- consume "+" ;;
      if plus : bool then
        rhs <- mul ;;
        expr_loop mul k' (new_binary ND_ADD node rhs)
      else
        minus <- consume "-" ;;
        if minus : bool then
          rhs <- mul ;;
          expr_loop mul k' (new_binary ND_SUB node rhs)
        else ret node
  end.

(** The [while (true)] of [mul]. *)
Fixpoint mul_loop (primary : M Node) (k : nat) (node : Node) : M Node :=
  match k with
  | O => out_of_fuel
  | S k' =>
      star <- consume "*" ;;
      if star : bool then
        rhs <- primary ;;
        mul_loop primary k' (new_binary ND_MUL node rhs)
      else
        slash <- consume "/" ;;
        if slash : bool then
          rhs <- primary ;;
          mul_loop primary k' (new_binary ND_DIV node rhs)
        else ret node
  end.

(** [expr], [mul] and [primary]: [d] bounds the depth of the call stack (one
    unit per call), [k] the iterations of each loop. *)
Fixpoint expr (d k : nat) {struct d} : M Node :=
  match d with
  | O => out_of_fuel
  | S d' =>
      node <- mul d' k ;;
      expr_loop (mul d' k) k node
  end
with mul (d k : nat) {struct d} : M Node :=
  match d with
  | O => out_of_fuel
  | S d' =>
      node <- primary d' k ;;
      mul_loop (primary d' k) k node
  end
with primary (d k : nat) {struct d} : M Node :=
  match d with
  | O => out_of_fuel
  | S d' =>
      paren <- consume "(" ;;
      if paren : bool then
        node <- expr d' k ;;
        _ <- expect ")" ;;
        ret node
      else
        v <- expect_number ;;
        ret (new_num v)
  end.

(** *** main *)

Inductive Diagnostic : Type :=
| Usage                           (* "引数の個数は2個です" *)
| At (pos : Z) (msg : Message).   (* the two lines of [error_at] *)

(** What a run of the program leaves: the lines on stdout, the diagnostic
    on stderr if any, the exit status. *)
Inductive Process : Type :=
| Exits (out : list Asm) (err : option Diagnostic) (status : Z)
| Segfault
| Unfinished.

(** [main] after [user_input = argv[1]]. *)
Definition compile (fuel : nat) : Process :=
  match tokenize fuel with
  | OK token =>
      match expr fuel fuel token with
      | OK (node, _) =>
          Exits ([IntelSyntax; GlobalMain; LabelMain] ++ gen node ++ [PopRax; Ret])
                None 0
      | Exit1 pos msg => Exits [] (Some (At pos msg)) 1
      | NullDeref => Segfault
      | OutOfFuel => Unfinished
      end
  | Exit1 pos msg => Exits [] (Some (At pos msg)) 1
  | NullDeref => Segfault
  | OutOfFuel => Unfinished
  end.

End Compiler.

(** [main(argc, argv)]; [argv] is the whole vector, [argc] its length. *)
Definition main (fuel : nat) (argv : list cstring) : Process :=
  if negb (Nat.eqb (length argv) 2) then Exits [] (Some Usage) 1
  else compile (nth 1 argv []) fuel.

(** ** The target machine

    x86-64 semantics of the lines the program prints: the registers [rax],
    [rdi] and [rdx] hold 64-bit values (kept as signed integers), the
    evaluation stack is the part of the machine stack above the frame of
    the caller. [None] is a fault: [#DE] of [idiv], or a [pop] below the
    part of the stack the fragment owns. *)

Record Machine : Type := mkMachine {
  rax : Z;
  rdi : Z;
  rdx : Z;
  stack : list Z
}.

(** A 64-bit result, read as two's complement. *)
Definition wrap64 (z : Z) : Z := (z + 2 ^ 63) mod 2 ^ 64 - 2 ^ 63.

Definition step (i : Asm) (m : Machine) : option Machine :=
  match i with
  | IntelSyntax | GlobalMain | LabelMain | Ret => Some m
  | PushImm v =>
      (* push imm32, sign-extended to 64 bits *)
      Some (mkMachine (rax m) (rdi m) (rdx m) (int_of_long v :: stack m))
  | PopRdi =>
      match stack m with
      | v :: s => Some (mkMachine (rax m) v (rdx m) s)
      | [] => None
      end
  | PopRax =>
      match stack m with
      | v :: s => Some (mkMachine v (rdi m) (rdx m) s)
      | [] => None
      end
  | AddRaxRdi => Some (mkMachine (wrap64 (rax m + rdi m)) (rdi m) (rdx m) (stack m))
  | SubRaxRdi => Some (mkMachine (wrap64 (rax m - rdi m)) (rdi m) (rdx m) (stack m))
  | ImulRaxRdi => Some (mkMachine (wrap64 (rax m * rdi m)) (rdi m) (rdx m) (stack m))
  | Cqo =>
      (* rdx:rax := sign extension of rax *)
      Some (mkMachine (rax m) (rdi m) (if rax m <? 0 then -1 else 0) (stack m))
  | IdivRdi =>
      (* signed division of the 128-bit rdx:rax by rdi, truncating; the
         quotient goes to rax, the remainder to rdx *)
      let dividend := rdx m * 2 ^ 64 + rax m mod 2 ^ 64 in
      if rdi m =? 0 then None
      else
        let q := Z.quot dividend (rdi m) in
        if (q <? - 2 ^ 63) || (2 ^ 63 - 1 <? q) then None
        else Some (mkMachine q (rdi m) (Z.rem dividend (rdi m)) (stack m))
  | PushRax => Some (mkMachine (rax m) (rdi m) (rdx m) (rax m :: stack m))
  end.

(** Execution of a sequence of lines, up to its end or to [ret]. *)
Fixpoint run (code : list Asm) (m : Machine) : option Machine :=
  match code with
  | [] => Some m
  | Ret :: _ => Some m
  | i :: code' =>
      match step i m with
      | Some m' => run code' m'
      | None => None
      end
  end.

(** The value a compiled program returns to its caller: [rax] at [ret]. *)
Definition returns (p : Process) (m : Machine) : option Z :=
  match p with
  | Exits out None 0 => option_map rax (run out m)
  | _ => None
  end.

(** Static stack discipline of a sequence of lines: from a fragment-owned
    height [h], the height after it; [None] when a [pop] finds the
    fragment's own part of the stack empty. *)
Fixpoint stack_height (code : list Asm) (h : nat) : option nat :=
  match code with
  | [] => Some h
  | (PushImm _ | PushRax) :: code' => stack_height code' (S h)
  | (PopRdi | PopRax) :: code' =>
      match h with
      | O => None
      | S h' => stack_height code' h'
      end
  | _ :: code' => stack_height code' h
  end.

(** The value the code of a node computes: 64-bit two's complement, [None]
    when a division faults. *)
Definition idiv64 (a b : Z) : option Z :=
  if b =? 0 then None
  else
    let q := Z.quot a b in
    if (q <? - 2 ^ 63) || (2 ^ 63 - 1 <? q) then None else Some q.

Fixpoint eval64 (node : Node) : option Z :=
  match node with
  | NumNode v => Some (int_of_long v)
  | BinNode ND_NUM _ _ => Some 0
  | BinNode k lhs rhs =>
      match eval64 lhs, eval64 rhs with
      | Some a, Some b =>
          match k with
          | ND_ADD => Some (wrap64 (a + b))
          | ND_SUB => Some (wrap64 (a - b))
          | ND_MUL => Some (wrap64 (a * b))
          | ND_DIV => idiv64 a b
          | ND_NUM => Some 0
          end
      | _, _ => None
      end
  end.

(** ** Reference semantics: what the specification compares the program with *)

(** Evaluation of a tree with exact integers; division truncates toward
    zero and has no value on a zero divisor. *)
Fixpoint eval (node : Node) : option Z :=
  match node with
  | NumNode v => Some v
  | BinNode ND_NUM _ _ => Some 0
  | BinNode k lhs rhs =>
      match eval lhs, eval rhs with
      | Some a, Some b =>
          match k with
          | ND_ADD => Some (a + b)
          | ND_SUB => Some (a - b)
          | ND_MUL => Some (a * b)
          | ND_DIV => if b =? 0 then None else Some (Z.quot a b)
          | ND_NUM => Some 0
          end
      | _, _ => None
      end
  end.

(** The characters of the six operator tokens. *)
Definition operators : cstring := list_ascii_of_string "+-*/()".

Definition is_operator (c : ascii) : bool := existsb (Ascii.eqb c) operators.

(** The decimal integer a run of digits denotes. *)
Definition decimal (ds : cstring) : Z :=
  fold_left (fun acc c => 10 * acc + digit_val c) ds 0.

(** A character the lexer has a rule for. *)
Definition scannable (c : ascii) : bool :=
  isspace c || is_operator c || isdigit c.

(** Lexical structure as the specification words it, over the tokens of the
    program: white space is skipped, an operator character is one
    [TK_RESERVED] token, a maximal run of digits is one [TK_NUM] token, the
    end of the input is the [TK_EOF] token. Each token points at its first
    character. *)
Inductive lexes : cstring -> list Token -> Prop :=
| lexes_eof p :
    deref p = NUL ->
    lexes p [mkToken TK_EOF 0 p]
| lexes_space c p ts :
    isspace c = true ->
    lexes p ts ->
    lexes (c :: p) ts
| lexes_operator c p ts :
    is_operator c = true ->
    lexes p ts ->
    lexes (c :: p) (mkToken TK_RESERVED 0 (c :: p) :: ts)
| lexes_number ds p v ts :
    ds <> [] ->
    forallb isdigit ds = true ->
    isdigit (deref p) = false ->
    lexes p ts ->
    lexes (ds ++ p) (mkToken TK_NUM v (ds ++ p) :: ts).

(** Lexemes of the expression language, literals with their mathematical
    value. *)
Inductive lexeme : Type :=
| LNum (n : Z)
| LSym (c : ascii).

(** [spells s ls]: the string [s], made of white space, operator characters
    and maximal runs of digits only, reads as the lexemes [ls]. *)
Inductive spells : cstring -> list lexeme -> Prop :=
| spells_nil : spells [] []
| spells_space c s ls :
    isspace c = true ->
    spells s ls ->
    spells (c :: s) ls
| spells_sym c s ls :
    is_operator c = true ->
    spells s ls ->
    spells (c :: s) (LSym c :: ls)
| spells_num ds s ls :
    ds <> [] ->
    forallb isdigit ds = true ->
    isdigit (deref s) = false ->
    spells s ls ->
    spells (ds ++ s) (LNum (decimal ds) :: ls).

(** Expressions as mathematics reads them. *)
Inductive Expr : Type :=
| ELit (n : Z)
| EAdd (a b : Expr)
| ESub (a b : Expr)
| EMul (a b : Expr)
| EDiv (a b : Expr).

(** The mathematical value: exact integers, quotient truncated toward zero,
    no value when a divisor is zero. *)
Fixpoint value (e : Expr) : option Z :=
  match e with
  | ELit n => Some n
  | EAdd a b =>
      match value a, value b with Some x, Some y => Some (x + y) | _, _ => None end
  | ESub a b =>
      match value a, value b with Some x, Some y => Some (x - y) | _, _ => None end
  | EMul a b =>
      match value a, value b with Some x, Some y => Some (x * y) | _, _ => None end
  | EDiv a b =>
      match value a, value b with
      | Some x, Some y => if y =? 0 then None else Some (Z.quot x y)
      | _, _ => None
      end
  end.

(** The grammar of well-formed expressions, with standard precedence
    ([*] and [/] bind tighter than [+] and [-]) and left associativity: the
    left operand of an operator is a whole expression of the same level, the
    right operand one of the next level. *)
Inductive g_expr : list lexeme -> Expr -> Prop :=
| g_expr_mul ls e :
    g_mul ls e -> g_expr ls e
| g_expr_add ls1 ls2 a b :
    g_expr ls1 a -> g_mul ls2 b -> g_expr (ls1 ++ LSym "+" :: ls2) (EAdd a b)
| g_expr_sub ls1 ls2 a b :
    g_expr ls1 a -> g_mul ls2 b -> g_expr (ls1 ++ LSym "-" :: ls2) (ESub a b)
with g_mul : list lexeme -> Expr -> Prop :=
| g_mul_primary ls e :
    g_primary ls e -> g_mul ls e
| g_mul_mul ls1 ls2 a b :
    g_mul ls1 a -> g_primary ls2 b -> g_mul (ls1 ++ LSym "*" :: ls2) (EMul a b)
| g_mul_div ls1 ls2 a b :
    g_mul ls1 a -> g_primary ls2 b -> g_mul (ls1 ++ LSym "/" :: ls2) (EDiv a b)
with g_primary : list lexeme -> Expr -> Prop :=
| g_primary_num n :
    g_primary [LNum n] (ELit n)
| g_primary_paren ls e :
    g_expr ls e -> g_primary (LSym "(" :: ls ++ [LSym ")"]) e.

Scheme g_expr_mut := Minimality for g_expr Sort Prop
  with g_mul_mut := Minimality for g_mul Sort Prop
  with g_primary_mut := Minimality for g_primary Sort Prop.

Combined Scheme grammar_ind from g_expr_mut, g_mul_mut, g_primary_mut.

(** A string is a well-formed expression denoting [e]. *)
Definition well_formed (s : cstring) (e : Expr) : Prop :=
  exists ls, spells s ls /\ g_expr ls e.

(** Every literal of the expression fits the target's [int]. *)
Fixpoint literals_fit (e : Expr) : Prop :=
  match e with
  | ELit n => 0 <= n <= INT_MAX
  | EAdd a b | ESub a b | EMul a b | EDiv a b => literals_fit a /\ literals_fit b
  end.

(** The tree the parser builds for [e]: a literal goes through [strtol] and
    the conversion to [int]. *)
Fixpoint node_of (e : Expr) : Node :=
  match e with
  | ELit n => NumNode (int_of_long (if n >? LONG_MAX then LONG_MAX else n))
  | EAdd a b => BinNode ND_ADD (node_of a) (node_of b)
  | ESub a b => BinNode ND_SUB (node_of a) (node_of b)
  | EMul a b => BinNode ND_MUL (node_of a) (node_of b)
  | EDiv a b => BinNode ND_DIV (node_of a) (node_of b)
  end.

(** Number of ["("] tokens of a token list. *)
Definition is_lparen (t : Token) : bool :=
  TokenKind_eqb (kind t) TK_RESERVED && Ascii.eqb (deref (str t)) "(".

Definition count_lparen (ts : list Token) : nat :=
  List.length (filter is_lparen ts).

(** The [val] the lexer gives the token of the digit run [ds]: the result
    of [strtol], converted to [int]. *)
Definition literal_value (ds : cstring) : Z :=
  int_of_long (if decimal ds >? LONG_MAX then LONG_MAX else decimal ds).

(** A result other than running out of fuel. *)
Definition finished {A} (r : result A) : Prop := r <> OutOfFuel.

(** The input as a command line. *)
Definition cmdline (s : string) : list cstring :=
  [list_ascii_of_string "9cc"; list_ascii_of_string s].

(** ** Vocabulary of the proofs *)

(** [P'] gives the result of [P] wherever [P] does not run out of fuel. *)
Definition refines {A} (P P' : M A) : Prop :=
  forall ts, finished (P ts) -> P' ts = P ts.

(** The token is the operator [c]. *)
Definition is_sym (c : ascii) (t : Token) : Prop :=
  kind t = TK_RESERVED /\ deref (str t) = c.

(** From [ts] to [ts'] the cursor went over tokens none of which is the
    [TK_EOF] token. *)
Definition consumes (ts ts' : list Token) : Prop :=
  exists pre, ts = pre ++ ts' /\ Forall (fun t => kind t <> TK_EOF) pre.

(** The same, and at least one token was gone over. *)
Definition advances (ts ts' : list Token) : Prop :=
  exists pre,
    ts = pre ++ ts' /\ pre <> [] /\ Forall (fun t => kind t <> TK_EOF) pre.

(** A parser whose successful runs advance the cursor. *)
Definition moves {A} (P : M A) : Prop :=
  forall ts a ts', P ts = OK (a, ts') -> advances ts ts'.

(** A parser whose successful runs do not move the cursor back. *)
Definition stays {A} (P : M A) : Prop :=
  forall ts a ts', P ts = OK (a, ts') -> consumes ts ts'.

(** [P] finishes on every cursor of at most [L] tokens, at most [N] of them
    ["("]. *)
Definition halts_on {A} (P : M A) (L N : nat) : Prop :=
  forall ts,
    (length ts <= L)%nat -> (count_lparen ts <= N)%nat -> finished (P ts).

(** A token list whose last token is a [TK_EOF] token. *)
Definition eof_terminated (ts : list Token) : Prop :=
  exists body e, ts = body ++ [e] /\ kind e = TK_EOF.

(** No [token->...] on the [NULL] after the last token. *)
Definition safe {A} (P : M A) : Prop :=
  forall ts, eof_terminated ts -> P ts <> NullDeref.

(** The cursor is on a token that ends the loop of [mul]. *)
Definition stops_mul (ts : list Token) : Prop :=
  exists t next, ts = t :: next /\ ~ is_sym "*" t /\ ~ is_sym "/" t.

(** The cursor is on a token that ends the loop of [expr]. *)
Definition stops_expr (ts : list Token) : Prop :=
  exists t next, ts = t :: next /\ ~ is_sym "+" t /\ ~ is_sym "-" t.

(** The token the lexer makes of a lexeme. *)
Definition tok_lex (t : Token) (l : lexeme) : Prop :=
  match l with
  | LSym c => is_sym c t
  | LNum n =>
      kind t = TK_NUM /\
      val t = int_of_long (if n >? LONG_MAX then LONG_MAX else n)
  end.

(** A [TK_NUM] token points at a maximal run of digits and holds the value
    the lexer gives that run. *)
Definition literal_token (t : Token) : Prop :=
  kind t = TK_NUM ->
  exists ds p,
    str t = ds ++ p /\ ds <> [] /\ forallb isdigit ds = true /\
    isdigit (deref p) = false /\ val t = literal_value ds.

(** Runs of the parsing functions and of their loops that succeed with
    some fuel. *)
Definition Primary (user_input : cstring) (ts : list Token)
    (x : Node * list Token) : Prop :=
  exists d k, primary user_input d k ts = OK x.

Definition Mul (user_input : cstring) (ts : list Token)
    (x : Node * list Token) : Prop :=
  exists d k, mul user_input d k ts = OK x.

Definition Expr_ (user_input : cstring) (ts : list Token)
    (x : Node * list Token) : Prop :=
  exists d k, expr user_input d k ts = OK x.

Definition MulLoop (user_input : cstring) (node : Node) (ts : list Token)
    (x : Node * list Token) : Prop :=
  exists d k, mul_loop (primary user_input d k) k node ts = OK x.

Definition ExprLoop (user_input : cstring) (node : Node) (ts : list Token)
    (x : Node * list Token) : Prop :=
  exists d k, expr_loop (mul user_input d k) k node ts = OK x.

(** ** Vocabulary of the further properties *)

(** [p] is a position of the buffer [s]: a pointer into it, or at its
    terminating NUL. *)
Definition position_of (s p : cstring) : Prop := exists pre, s = pre ++ p.

(** What a token of the lexer points at, by kind. *)
Definition token_at (s : cstring) (t : Token) : Prop :=
  position_of s (str t) /\
  match kind t with
  | TK_RESERVED => is_operator (deref (str t)) = true /\ val t = 0
  | TK_NUM => isdigit (deref (str t)) = true /\ INT_MIN <= val t <= INT_MAX
  | TK_EOF => deref (str t) = NUL /\ val t = 0
  end.

(** The token [a] starts before the token [b]. *)
Definition starts_before (a b : Token) : Prop :=
  (length (str b) < length (str a))%nat.

(** Every literal of the tree is an [int]. *)
Fixpoint int_literals (node : Node) : Prop :=
  match node with
  | NumNode v => INT_MIN <= v <= INT_MAX
  | BinNode _ lhs rhs => int_literals lhs /\ int_literals rhs
  end.

(** The tree has no [ND_DIV] node. *)
Fixpoint division_free (node : Node) : Prop :=
  match node with
  | NumNode _ => True
  | BinNode k lhs rhs => k <> ND_DIV /\ division_free lhs /\ division_free rhs
  end.

(** An immediate operand that fits the 32 bits of [push imm32]. *)
Definition imm32 (i : Asm) : Prop :=
  match i with
  | PushImm v => INT_MIN <= v <= INT_MAX
  | _ => True
  end.

(** The expression and each of its subexpressions have a value, which fits
    64 bits. *)
Fixpoint no_overflow (e : Expr) : Prop :=
  match e with
  | ELit _ => True
  | EAdd a b | ESub a b | EMul a b | EDiv a b =>
      no_overflow a /\ no_overflow b /\
      exists v, value e = Some v /\ - 2 ^ 63 <= v <= 2 ^ 63 - 1
  end.

(** The message is one the parser reports at the token [t]. *)
Definition blames (user_input : cstring) (t : Token) (pos : Z) (msg : Message) : Prop :=
  pos = Z.of_nat (length user_input) - Z.of_nat (length (str t)) /\
  ((msg = NotNumber /\ kind t <> TK_NUM) \/
   (msg = NotChar ")" /\ ~ is_sym ")" t)).

(** The errors of [P] are reported at a token of the list it is run on. *)
Definition reports (user_input : cstring) {A} (P : M A) : Prop :=
  forall ts pos msg,
    P ts = Exit1 pos msg -> exists t, In t ts /\ blames user_input t pos msg.

(** Every [val] of the tokens is an [int]. *)
Definition int_tokens (ts : list Token) : Prop :=
  Forall (fun t => INT_MIN <= val t <= INT_MAX) ts.

(** The trees [P] builds from tokens whose [val] are [int] have [int]
    literals only. *)
Definition builds_ints (P : M Node) : Prop :=
  forall ts node rest,
    int_tokens ts -> P ts = OK (node, rest) -> int_literals node.

(** Whatever [P] accepts is, for the lexemes of the tokens it went over, a
    derivation of [G] whose tree it returns. *)
Definition sound_for (G : list lexeme -> Expr -> Prop) (P : M Node) : Prop :=
  forall ts node rest,
    P ts = OK (node, rest) ->
    exists pre,
      ts = pre ++ rest /\
      forall ls, Forall2 tok_lex pre ls ->
                 exists e, G ls e /\ node = node_of e.

(** * Verification *)

(** ** Characters *)

Ltac by_ascii c :=
  destruct c as [[] [] [] [] [] [] [] []]; vm_compute; try reflexivity;
  try discriminate; auto.

Lemma isspace_not_NUL c : isspace c = true -> Ascii.eqb c NUL = false.
Proof. by_ascii c. Qed.

Lemma isdigit_not_NUL c : isdigit c = true -> Ascii.eqb c NUL = false.
Proof. by_ascii c. Qed.

Lemma isdigit_not_space c : isdigit c = true -> isspace c = false.
Proof. by_ascii c. Qed.

Lemma isdigit_not_operator c : isdigit c = true -> is_operator c = false.
Proof. by_ascii c. Qed.

Lemma is_operator_not_NUL c : is_operator c = true -> Ascii.eqb c NUL = false.
Proof. by_ascii c. Qed.

Lemma is_operator_not_space c : is_operator c = true -> isspace c = false.
Proof. by_ascii c. Qed.

Lemma strchr_operators c :
  strchr operators c = is_operator c || Ascii.eqb c NUL.
Proof. by_ascii c. Qed.

Lemma isdigit_NUL : isdigit NUL = false.
Proof. reflexivity. Qed.

Lemma digit_val_range c : isdigit c = true -> 0 <= digit_val c <= 9.
Proof. destruct c as [[] [] [] [] [] [] [] []]; vm_compute; intuition discriminate. Qed.

Lemma eqb_NUL_deref p : Ascii.eqb (deref p) NUL = true -> deref p = NUL.
Proof. apply Ascii.eqb_eq. Qed.

(** ** [strtol] and the conversion to [int] *)

Lemma strtol_digits_run ds : forall p acc,
  forallb isdigit ds = true ->
  isdigit (deref p) = false ->
  strtol_digits acc (ds ++ p) =
  (fold_left (fun a c => 10 * a + digit_val c) ds acc, p).
Proof.
  induction ds as [|c ds IH]; intros p acc Hds Hp; simpl in *.
  - destruct p as [|x p]; simpl in *; [reflexivity | now rewrite Hp].
  - apply andb_prop in Hds as [Hc Hds]. rewrite Hc. now apply IH.
Qed.

Lemma strtol_run ds p :
  forallb isdigit ds = true ->
  isdigit (deref p) = false ->
  strtol (ds ++ p) =
  (if decimal ds >? LONG_MAX then LONG_MAX else decimal ds, p).
Proof.
  intros Hds Hp. unfold strtol. now rewrite strtol_digits_run.
Qed.

(** Every position splits into its maximal run of digits and the rest. *)
Lemma digit_run p :
  exists ds rest,
    p = ds ++ rest /\ forallb isdigit ds = true /\ isdigit (deref rest) = false.
Proof.
  induction p as [|c p IH].
  - exists [], []. now repeat split.
  - destruct (isdigit c) eqn:Hc.
    + destruct IH as (ds & rest & -> & Hds & Hrest).
      exists (c :: ds), rest. simpl. rewrite Hc, Hds. now repeat split.
    + exists [], (c :: p). simpl. now repeat split.
Qed.

Lemma decimal_nonneg_from ds : forall acc,
  forallb isdigit ds = true -> 0 <= acc ->
  0 <= fold_left (fun a c => 10 * a + digit_val c) ds acc.
Proof.
  induction ds as [|c ds IH]; intros acc Hds Hacc; cbn [fold_left forallb] in *;
    [assumption|].
  apply andb_prop in Hds as [Hc Hds]. apply IH; [assumption|].
  pose proof (digit_val_range c Hc). lia.
Qed.

Lemma decimal_nonneg ds : forallb isdigit ds = true -> 0 <= decimal ds.
Proof. intros H. unfold decimal. apply decimal_nonneg_from; [assumption|lia]. Qed.

Lemma int_of_long_fits z : INT_MIN <= z <= INT_MAX -> int_of_long z = z.
Proof.
  unfold INT_MIN, INT_MAX, int_of_long. intros H.
  rewrite Z.mod_small; lia.
Qed.

Lemma int_of_long_range z : INT_MIN <= int_of_long z <= INT_MAX.
Proof.
  unfold INT_MIN, INT_MAX, int_of_long.
  pose proof (Z.mod_pos_bound (z + 2 ^ 31) (2 ^ 32) ltac:(lia)). lia.
Qed.

Lemma wrap64_range z : - 2 ^ 63 <= wrap64 z <= 2 ^ 63 - 1.
Proof.
  unfold wrap64.
  pose proof (Z.mod_pos_bound (z + 2 ^ 63) (2 ^ 64) ltac:(lia)). lia.
Qed.

Lemma wrap64_fits z : - 2 ^ 63 <= z <= 2 ^ 63 - 1 -> wrap64 z = z.
Proof.
  unfold wrap64. intros H. rewrite Z.mod_small by lia. lia.
Qed.

(** ** The lexer, one step at a time *)

Section Lexer.

Variable user_input : cstring.

Lemma tokenize_eof fuel p :
  deref p = NUL ->
  tokenize_loop user_input (S fuel) p = OK [mkToken TK_EOF 0 p].
Proof.
  intros H. simpl. rewrite H. reflexivity.
Qed.

Lemma tokenize_space fuel c p :
  isspace c = true ->
  tokenize_loop user_input (S fuel) (c :: p) = tokenize_loop user_input fuel p.
Proof.
  intros H. cbn [tokenize_loop deref hd tl].
  rewrite (isspace_not_NUL c H), H. reflexivity.
Qed.

Lemma tokenize_operator fuel c p :
  is_operator c = true ->
  tokenize_loop user_input (S fuel) (c :: p) =
  match tokenize_loop user_input fuel p with
  | OK rest => OK (mkToken TK_RESERVED 0 (c :: p) :: rest)
  | e => e
  end.
Proof.
  intros H. cbn [tokenize_loop deref hd tl].
  rewrite (is_operator_not_NUL c H), (is_operator_not_space c H).
  fold operators. rewrite strchr_operators, H. reflexivity.
Qed.

Lemma tokenize_number fuel ds p :
  ds <> [] ->
  forallb isdigit ds = true ->
  isdigit (deref p) = false ->
  tokenize_loop user_input (S fuel) (ds ++ p) =
  match tokenize_loop user_input fuel p with
  | OK rest => OK (mkToken TK_NUM (literal_value ds) (ds ++ p) :: rest)
  | e => e
  end.
Proof.
  intros Hne Hds Hp.
  destruct ds as [|c ds]; [congruence|].
  pose proof Hds as Hds'. cbn [forallb] in Hds'.
  apply andb_prop in Hds' as [Hc _].
  cbn [tokenize_loop].
  replace (deref ((c :: ds) ++ p)) with c by reflexivity.
  rewrite (isdigit_not_NUL c Hc), (isdigit_not_space c Hc).
  fold operators. rewrite strchr_operators, (isdigit_not_operator c Hc),
    (isdigit_not_NUL c Hc), Hc.
  cbn [orb]. rewrite (strtol_run (c :: ds) p Hds Hp). reflexivity.
Qed.

Lemma tokenize_unrecognized fuel c p :
  scannable c = false ->
  c <> NUL ->
  tokenize_loop user_input (S fuel) (c :: p) =
  error_at user_input (c :: p) CannotTokenize.
Proof.
  intros H Hc. unfold scannable in H.
  apply orb_false_elim in H as [H Hd]. apply orb_false_elim in H as [Hs Ho].
  apply Ascii.eqb_neq in Hc.
  cbn [tokenize_loop deref hd tl]. rewrite Hc, Hs.
  fold operators. rewrite strchr_operators, Ho, Hc, Hd. reflexivity.
Qed.

(** The lexer stops with enough fuel: either the tokens of the input, as
    [lexes] describes them, or the error at the first character it has no
    rule for. *)
Lemma tokenize_loop_spec fuel : forall p,
  (length p < fuel)%nat ->
  (exists ts, tokenize_loop user_input fuel p = OK ts /\ lexes p ts) \/
  (exists pre c rest,
      p = pre ++ c :: rest /\
      forallb scannable pre = true /\
      scannable c = false /\ c <> NUL /\
      tokenize_loop user_input fuel p =
      error_at user_input (c :: rest) CannotTokenize).
Proof.
  induction fuel as [|fuel IH]; intros p Hlen; [lia|].
  destruct (Ascii.eqb (deref p) NUL) eqn:Hnul.
  { left. eexists. split; [apply tokenize_eof | apply lexes_eof];
      now apply Ascii.eqb_eq. }
  destruct p as [|c p]; [discriminate|]. cbn [deref hd] in Hnul.
  cbn [length] in Hlen.
  destruct (isspace c) eqn:Hs.
  { rewrite tokenize_space by assumption.
    destruct (IH p ltac:(lia)) as [(ts & E & L) | (pre & x & rest & -> & Hpre & Hx & Hn & E)].
    - left. exists ts. split; [assumption|]. now apply lexes_space.
    - right. exists (c :: pre), x, rest. repeat split; try assumption.
      cbn [forallb]. unfold scannable at 1. now rewrite Hs. }
  destruct (is_operator c) eqn:Ho.
  { rewrite tokenize_operator by assumption.
    destruct (IH p ltac:(lia)) as [(ts & E & L) | (pre & x & rest & -> & Hpre & Hx & Hn & E)].
    - left. rewrite E. eexists. split; [reflexivity|]. now apply lexes_operator.
    - right. exists (c :: pre), x, rest. rewrite E. repeat split; try assumption.
      cbn [forallb]. unfold scannable at 1. now rewrite Hs, Ho. }
  destruct (isdigit c) eqn:Hd.
  { destruct (digit_run p) as (ds & q & -> & Hds & Hq).
    assert (Hds' : forallb isdigit (c :: ds) = true)
      by (cbn [forallb]; now rewrite Hd, Hds).
    change (c :: ds ++ q) with ((c :: ds) ++ q).
    rewrite tokenize_number by (assumption || discriminate).
    rewrite length_app in Hlen.
    destruct (IH q ltac:(lia)) as [(ts & E & L) | (pre & x & rest & -> & Hpre & Hx & Hn & E)].
    - left. rewrite E. eexists. split; [reflexivity|].
      apply lexes_number; (assumption || discriminate).
    - right. exists ((c :: ds) ++ pre), x, rest. rewrite E.
      repeat split; try assumption.
      + now rewrite <- app_assoc.
      + rewrite forallb_app, Hpre, andb_true_r.
        rewrite forallb_forall in Hds' |- *. intros y Hy.
        unfold scannable. rewrite (Hds' y Hy). now rewrite !orb_true_r. }
  right. exists [], c, p. repeat split.
  - unfold scannable. now rewrite Hs, Ho, Hd.
  - now apply Ascii.eqb_neq.
  - apply tokenize_unrecognized; [|now apply Ascii.eqb_neq].
    unfold scannable. now rewrite Hs, Ho, Hd.
Qed.

End Lexer.

(** ** The parser's monad *)

Lemma refines_refl {A} (P : M A) : refines P P.
Proof. intros ts _. reflexivity. Qed.

Lemma refines_bind {A B} (m m' : M A) (f f' : A -> M B) :
  refines m m' ->
  (forall a, refines (f a) (f' a)) ->
  refines (bind m f) (bind m' f').
Proof.
  intros Hm Hf ts Hfin. unfold bind in *.
  destruct (m ts) as [[a ts1]| | |] eqn:E.
  - rewrite (Hm ts), E by (rewrite E; discriminate). now apply Hf.
  - rewrite (Hm ts), E by (rewrite E; discriminate). reflexivity.
  - rewrite (Hm ts), E by (rewrite E; discriminate). reflexivity.
  - now elim Hfin.
Qed.

Lemma refines_if {A} (b : bool) (P P' Q Q' : M A) :
  refines P P' -> refines Q Q' ->
  refines (if b then P else Q) (if b then P' else Q').
Proof. now destruct b. Qed.

Lemma refines_out_of_fuel {A} (P : M A) : refines out_of_fuel P.
Proof. intros ts H. now elim H. Qed.

Lemma bind_OK {A B} (m : M A) (f : A -> M B) ts a ts1 :
  m ts = OK (a, ts1) -> bind m f ts = f a ts1.
Proof. intros E. unfold bind. now rewrite E. Qed.

Lemma bind_OK_inv {A B} (m : M A) (f : A -> M B) ts x :
  bind m f ts = OK x ->
  exists a ts1, m ts = OK (a, ts1) /\ f a ts1 = OK x.
Proof.
  unfold bind. destruct (m ts) as [[a ts1]| | |]; try discriminate.
  intros H. now exists a, ts1.
Qed.

Lemma bind_finished {A B} (m : M A) (f : A -> M B) ts :
  finished (m ts) ->
  (forall a ts1, m ts = OK (a, ts1) -> finished (f a ts1)) ->
  finished (bind m f ts).
Proof.
  intros Hm Hf. unfold bind.
  destruct (m ts) as [[a ts1]| | |]; try discriminate; auto.
  now elim Hm.
Qed.

(** ** The cursor operations *)

Lemma TokenKind_eqb_eq a b : TokenKind_eqb a b = true <-> a = b.
Proof. destruct a, b; simpl; split; congruence. Qed.

Section Cursor.

Variable user_input : cstring.

Lemma consume_sym c t next :
  is_sym c t -> consume c (t :: next) = OK (true, next).
Proof.
  intros [Hk Hc]. unfold consume. rewrite Hk, Hc, Ascii.eqb_refl. reflexivity.
Qed.

Lemma consume_other c t next :
  ~ is_sym c t -> consume c (t :: next) = OK (false, t :: next).
Proof.
  intros H. unfold consume.
  destruct (TokenKind_eqb (kind t) TK_RESERVED) eqn:Hk; [|reflexivity].
  destruct (Ascii.eqb (deref (str t)) c) eqn:Hc; [|reflexivity].
  elim H. split; [now apply TokenKind_eqb_eq | now apply Ascii.eqb_eq].
Qed.

(** [consume] only looks at the current token: it moves the cursor by one
    token when that token is the operator asked for, and leaves it where it
    was otherwise. *)
Lemma consume_cases c ts :
  (ts = [] /\ consume c ts = NullDeref) \/
  (exists t next, ts = t :: next /\ is_sym c t /\ consume c ts = OK (true, next)) \/
  (exists t next, ts = t :: next /\ ~ is_sym c t /\ consume c ts = OK (false, ts)).
Proof.
  destruct ts as [|t next]; [now left|right].
  destruct (TokenKind_eqb (kind t) TK_RESERVED) eqn:Hk.
  - destruct (Ascii.eqb (deref (str t)) c) eqn:Hc.
    + left. exists t, next. apply TokenKind_eqb_eq in Hk. apply Ascii.eqb_eq in Hc.
      repeat split; try assumption. now apply consume_sym.
    + right. exists t, next.
      assert (H : ~ is_sym c t).
      { intros [_ H]. apply Ascii.eqb_neq in Hc. contradiction. }
      repeat split; try assumption. now apply consume_other.
  - right. exists t, next.
    assert (H : ~ is_sym c t).
    { intros [H _]. apply TokenKind_eqb_eq in H. congruence. }
    repeat split; try assumption. now apply consume_other.
Qed.

Lemma consume_finished c ts : finished (consume c ts).
Proof.
  destruct (consume_cases c ts) as [[_ E] | [(t & next & _ & _ & E) | (t & next & _ & _ & E)]];
    rewrite E; discriminate.
Qed.

Lemma expect_finished c ts : finished (expect user_input c ts).
Proof.
  unfold expect, error_at. destruct ts as [|t next]; [discriminate|].
  destruct (_ || _); discriminate.
Qed.

Lemma expect_number_finished ts : finished (expect_number user_input ts).
Proof.
  unfold expect_number, error_at. destruct ts as [|t next]; [discriminate|].
  destruct (negb _); discriminate.
Qed.

Lemma expect_sym c t next :
  is_sym c t -> expect user_input c (t :: next) = OK (tt, next).
Proof.
  intros [Hk Hc]. unfold expect. rewrite Hk, Hc, Ascii.eqb_refl. reflexivity.
Qed.

Lemma expect_OK_inv c ts u ts1 :
  expect user_input c ts = OK (u, ts1) ->
  exists t, ts = t :: ts1 /\ is_sym c t.
Proof.
  unfold expect, error_at. destruct ts as [|t next]; [discriminate|].
  destruct (TokenKind_eqb (kind t) TK_RESERVED) eqn:Hk; [|discriminate].
  destruct (Ascii.eqb (deref (str t)) c) eqn:Hc; [|discriminate].
  cbn. intros H. inversion H; subst. exists t. split; [reflexivity|].
  split; [now apply TokenKind_eqb_eq | now apply Ascii.eqb_eq].
Qed.

Lemma expect_number_num t next :
  kind t = TK_NUM -> expect_number user_input (t :: next) = OK (val t, next).
Proof. intros Hk. unfold expect_number. now rewrite Hk. Qed.

Lemma expect_number_OK_inv ts v ts1 :
  expect_number user_input ts = OK (v, ts1) ->
  exists t, ts = t :: ts1 /\ kind t = TK_NUM /\ v = val t.
Proof.
  unfold expect_number, error_at. destruct ts as [|t next]; [discriminate|].
  destruct (TokenKind_eqb (kind t) TK_NUM) eqn:Hk; [|discriminate].
  cbn. intros H. inversion H; subst. exists t.
  apply TokenKind_eqb_eq in Hk. now repeat split.
Qed.

End Cursor.

(** ** The parser: more fuel does not change a result *)

Section Parser.

Variable user_input : cstring.

Local Abbreviation expr := (expr user_input).
Local Abbreviation mul := (mul user_input).
Local Abbreviation primary := (primary user_input).
Local Abbreviation expect := (expect user_input).
Local Abbreviation expect_number := (expect_number user_input).
Local Abbreviation Primary := (Primary user_input).
Local Abbreviation Mul := (Mul user_input).
Local Abbreviation Expr_ := (Expr_ user_input).
Local Abbreviation MulLoop := (MulLoop user_input).
Local Abbreviation ExprLoop := (ExprLoop user_input).

Lemma expr_S d k :
  expr (S d) k = (node <- mul d k ;; expr_loop (mul d k) k node).
Proof. reflexivity. Qed.

Lemma mul_S d k :
  mul (S d) k = (node <- primary d k ;; mul_loop (primary d k) k node).
Proof. reflexivity. Qed.

Lemma primary_S d k :
  primary (S d) k =
  (paren <- consume "(" ;;
   if paren : bool then node <- expr d k ;; _ <- expect ")" ;; ret node
   else v <- expect_number ;; ret (new_num v)).
Proof. reflexivity. Qed.

Lemma expr_loop_S P k node :
  expr_loop P (S k) node =
  (plus <- consume "+" ;;
   if plus : bool then rhs <- P ;; expr_loop P k (new_binary ND_ADD node rhs)
   else
     minus <- consume "-" ;;
     if minus : bool then rhs <- P ;; expr_loop P k (new_binary ND_SUB node rhs)
     else ret node).
Proof. reflexivity. Qed.

Lemma mul_loop_S P k node :
  mul_loop P (S k) node =
  (star <- consume "*" ;;
   if star : bool then rhs <- P ;; mul_loop P k (new_binary ND_MUL node rhs)
   else
     slash <- consume "/" ;;
     if slash : bool then rhs <- P ;; mul_loop P k (new_binary ND_DIV node rhs)
     else ret node).
Proof. reflexivity. Qed.

Lemma expr_loop_mono P P' :
  refines P P' ->
  forall k k' node, (k <= k')%nat ->
  refines (expr_loop P k node) (expr_loop P' k' node).
Proof.
  intros HP. induction k as [|k IH]; intros k' node Hk.
  - apply refines_out_of_fuel.
  - destruct k' as [|k']; [lia|]. rewrite !expr_loop_S.
    apply refines_bind; [apply refines_refl|]. intros plus.
    apply refines_if.
    + apply refines_bind; [exact HP|]. intros rhs. apply IH. lia.
    + apply refines_bind; [apply refines_refl|]. intros minus.
      apply refines_if; [|apply refines_refl].
      apply refines_bind; [exact HP|]. intros rhs. apply IH. lia.
Qed.

Lemma mul_loop_mono P P' :
  refines P P' ->
  forall k k' node, (k <= k')%nat ->
  refines (mul_loop P k node) (mul_loop P' k' node).
Proof.
  intros HP. induction k as [|k IH]; intros k' node Hk.
  - apply refines_out_of_fuel.
  - destruct k' as [|k']; [lia|]. rewrite !mul_loop_S.
    apply refines_bind; [apply refines_refl|]. intros star.
    apply refines_if.
    + apply refines_bind; [exact HP|]. intros rhs. apply IH. lia.
    + apply refines_bind; [apply refines_refl|]. intros slash.
      apply refines_if; [|apply refines_refl].
      apply refines_bind; [exact HP|]. intros rhs. apply IH. lia.
Qed.

Lemma parser_mono d : forall d' k k',
  (d <= d')%nat -> (k <= k')%nat ->
  refines (expr d k) (expr d' k') /\
  refines (mul d k) (mul d' k') /\
  refines (primary d k) (primary d' k').
Proof.
  induction d as [|d IH]; intros d' k k' Hd Hk.
  - repeat split; apply refines_out_of_fuel.
  - destruct d' as [|d']; [lia|].
    destruct (IH d' k k' ltac:(lia) Hk) as (He & Hm & Hp).
    repeat split.
    + rewrite !expr_S. apply refines_bind; [exact Hm|]. intros node.
      now apply expr_loop_mono.
    + rewrite !mul_S. apply refines_bind; [exact Hp|]. intros node.
      now apply mul_loop_mono.
    + rewrite !primary_S. apply refines_bind; [apply refines_refl|].
      intros paren. apply refines_if; [|apply refines_refl].
      apply refines_bind; [exact He|]. intros node. apply refines_refl.
Qed.

Lemma expr_mono d d' k k' ts :
  (d <= d')%nat -> (k <= k')%nat ->
  finished (expr d k ts) -> expr d' k' ts = expr d k ts.
Proof. intros Hd Hk. now apply parser_mono. Qed.

(** ** The parser: the cursor only moves forward, over tokens other than
    [TK_EOF] *)

Lemma consumes_refl ts : consumes ts ts.
Proof. exists []. split; [reflexivity | constructor]. Qed.

Lemma advances_consumes ts ts' : advances ts ts' -> consumes ts ts'.
Proof. intros (pre & E & _ & F). now exists pre. Qed.

Lemma advances_step t ts : kind t <> TK_EOF -> advances (t :: ts) ts.
Proof.
  intros H. exists [t]. repeat split; [discriminate | now repeat constructor].
Qed.

Lemma advances_sym c t ts : is_sym c t -> advances (t :: ts) ts.
Proof. intros [H _]. apply advances_step. congruence. Qed.

Lemma advances_trans_l ts1 ts2 ts3 :
  advances ts1 ts2 -> consumes ts2 ts3 -> advances ts1 ts3.
Proof.
  intros (p1 & -> & N & F1) (p2 & -> & F2). exists (p1 ++ p2).
  rewrite app_assoc. repeat split.
  - destruct p1; [congruence | discriminate].
  - now apply Forall_app.
Qed.

Lemma advances_trans ts1 ts2 ts3 :
  advances ts1 ts2 -> advances ts2 ts3 -> advances ts1 ts3.
Proof. intros H1 H2. eapply advances_trans_l; eauto using advances_consumes. Qed.

Lemma advances_length ts ts' :
  advances ts ts' -> (length ts' < length ts)%nat.
Proof.
  intros (pre & -> & N & _). rewrite length_app.
  destruct pre; [congruence | simpl; lia].
Qed.

Lemma count_lparen_app ts1 ts2 :
  count_lparen (ts1 ++ ts2) = (count_lparen ts1 + count_lparen ts2)%nat.
Proof. unfold count_lparen. now rewrite filter_app, length_app. Qed.

Lemma consumes_lparen ts ts' :
  consumes ts ts' -> (count_lparen ts' <= count_lparen ts)%nat.
Proof. intros (pre & -> & _). rewrite count_lparen_app. lia. Qed.

Lemma count_lparen_sym t ts :
  is_sym "(" t -> count_lparen (t :: ts) = S (count_lparen ts).
Proof.
  intros [Hk Hc]. unfold count_lparen. cbn [filter]. unfold is_lparen.
  rewrite Hk, Hc. reflexivity.
Qed.

Lemma consume_OK_inv c ts b ts1 :
  consume c ts = OK (b, ts1) ->
  (b = true /\ exists t, ts = t :: ts1 /\ is_sym c t) \/
  (b = false /\ ts1 = ts /\ exists t next, ts = t :: next /\ ~ is_sym c t).
Proof.
  destruct (consume_cases c ts)
    as [[_ E] | [(t & next & -> & S & E) | (t & next & -> & S & E)]];
    rewrite E; intros H; inversion H; subst.
  - left. split; [reflexivity|]. now exists t.
  - right. repeat split. now exists t, next.
Qed.

Lemma expr_loop_stays P : moves P -> forall k node, stays (expr_loop P k node).
Proof.
  intros HP. induction k as [|k IH]; intros node ts a ts' H; [discriminate|].
  rewrite expr_loop_S in H.
  apply bind_OK_inv in H as (plus & ts1 & Hc & H).
  apply consume_OK_inv in Hc as [(-> & t & -> & Hs) | (-> & -> & _)].
  - apply bind_OK_inv in H as (rhs & ts2 & HP1 & H).
    apply advances_consumes. eapply advances_trans_l; [|eapply IH, H].
    eapply advances_trans; [eapply advances_sym, Hs | eapply HP, HP1].
  - apply bind_OK_inv in H as (minus & ts1 & Hc & H).
    apply consume_OK_inv in Hc as [(-> & t & -> & Hs) | (-> & -> & _)].
    + apply bind_OK_inv in H as (rhs & ts2 & HP1 & H).
      apply advances_consumes. eapply advances_trans_l; [|eapply IH, H].
      eapply advances_trans; [eapply advances_sym, Hs | eapply HP, HP1].
    + inversion H; subst. apply consumes_refl.
Qed.

Lemma mul_loop_stays P : moves P -> forall k node, stays (mul_loop P k node).
Proof.
  intros HP. induction k as [|k IH]; intros node ts a ts' H; [discriminate|].
  rewrite mul_loop_S in H.
  apply bind_OK_inv in H as (star & ts1 & Hc & H).
  apply consume_OK_inv in Hc as [(-> & t & -> & Hs) | (-> & -> & _)].
  - apply bind_OK_inv in H as (rhs & ts2 & HP1 & H).
    apply advances_consumes. eapply advances_trans_l; [|eapply IH, H].
    eapply advances_trans; [eapply advances_sym, Hs | eapply HP, HP1].
  - apply bind_OK_inv in H as (slash & ts1 & Hc & H).
    apply consume_OK_inv in Hc as [(-> & t & -> & Hs) | (-> & -> & _)].
    + apply bind_OK_inv in H as (rhs & ts2 & HP1 & H).
      apply advances_consumes. eapply advances_trans_l; [|eapply IH, H].
      eapply advances_trans; [eapply advances_sym, Hs | eapply HP, HP1].
    + inversion H; subst. apply consumes_refl.
Qed.

Lemma parser_moves d : forall k,
  moves (expr d k) /\ moves (mul d k) /\ moves (primary d k).
Proof.
  induction d as [|d IH]; intros k.
  - repeat split; intros ts a ts' H; discriminate.
  - destruct (IH k) as (He & Hm & Hp). repeat split; intros ts a ts' H.
    + rewrite expr_S in H. apply bind_OK_inv in H as (node & ts1 & H1 & H).
      eapply advances_trans_l; [eapply Hm, H1|].
      eapply expr_loop_stays; [exact Hm | exact H].
    + rewrite mul_S in H. apply bind_OK_inv in H as (node & ts1 & H1 & H).
      eapply advances_trans_l; [eapply Hp, H1|].
      eapply mul_loop_stays; [exact Hp | exact H].
    + rewrite primary_S in H. apply bind_OK_inv in H as (paren & ts1 & Hc & H).
      apply consume_OK_inv in Hc as [(-> & t & -> & Hs) | (-> & -> & _)].
      * apply bind_OK_inv in H as (node & ts2 & H1 & H).
        apply bind_OK_inv in H as (u & ts3 & H2 & H).
        inversion H; subst.
        apply expect_OK_inv in H2 as (t' & -> & Hs').
        eapply advances_trans; [eapply advances_sym, Hs|].
        eapply advances_trans; [eapply He, H1 | eapply advances_sym, Hs'].
      * apply bind_OK_inv in H as (v & ts2 & H1 & H).
        inversion H; subst.
        apply expect_number_OK_inv in H1 as (t' & -> & Hk & _).
        apply advances_step. congruence.
Qed.

(** ** The parser: enough fuel *)

Lemma ret_finished {A} (a : A) ts : finished (ret a ts).
Proof. discriminate. Qed.

Lemma expr_loop_halts P L N :
  halts_on P L N -> moves P ->
  forall k node ts,
    (length ts < k)%nat -> (length ts <= L)%nat -> (count_lparen ts <= N)%nat ->
    finished (expr_loop P k node ts).
Proof.
  intros HP HM. induction k as [|k IH]; intros node ts Hk HL HN; [lia|].
  rewrite expr_loop_S.
  apply bind_finished; [apply consume_finished|]. intros plus ts1 Hc.
  apply consume_OK_inv in Hc as [(-> & t & -> & Hs) | (-> & -> & _)].
  - pose proof (advances_sym _ _ ts1 Hs) as Ha.
    pose proof (advances_length _ _ Ha).
    pose proof (consumes_lparen _ _ (advances_consumes _ _ Ha)).
    apply bind_finished; [apply HP; lia|]. intros rhs ts2 H2.
    pose proof (HM _ _ _ H2) as Ha2.
    pose proof (advances_length _ _ Ha2).
    pose proof (consumes_lparen _ _ (advances_consumes _ _ Ha2)).
    apply IH; lia.
  - apply bind_finished; [apply consume_finished|]. intros minus ts1 Hc.
    apply consume_OK_inv in Hc as [(-> & t & -> & Hs) | (-> & -> & _)];
      [|apply ret_finished].
    pose proof (advances_sym _ _ ts1 Hs) as Ha.
    pose proof (advances_length _ _ Ha).
    pose proof (consumes_lparen _ _ (advances_consumes _ _ Ha)).
    apply bind_finished; [apply HP; lia|]. intros rhs ts2 H2.
    pose proof (HM _ _ _ H2) as Ha2.
    pose proof (advances_length _ _ Ha2).
    pose proof (consumes_lparen _ _ (advances_consumes _ _ Ha2)).
    apply IH; lia.
Qed.

Lemma mul_loop_halts P L N :
  halts_on P L N -> moves P ->
  forall k node ts,
    (length ts < k)%nat -> (length ts <= L)%nat -> (count_lparen ts <= N)%nat ->
    finished (mul_loop P k node ts).
Proof.
  intros HP HM. induction k as [|k IH]; intros node ts Hk HL HN; [lia|].
  rewrite mul_loop_S.
  apply bind_finished; [apply consume_finished|]. intros star ts1 Hc.
  apply consume_OK_inv in Hc as [(-> & t & -> & Hs) | (-> & -> & _)].
  - pose proof (advances_sym _ _ ts1 Hs) as Ha.
    pose proof (advances_length _ _ Ha).
    pose proof (consumes_lparen _ _ (advances_consumes _ _ Ha)).
    apply bind_finished; [apply HP; lia|]. intros rhs ts2 H2.
    pose proof (HM _ _ _ H2) as Ha2.
    pose proof (advances_length _ _ Ha2).
    pose proof (consumes_lparen _ _ (advances_consumes _ _ Ha2)).
    apply IH; lia.
  - apply bind_finished; [apply consume_finished|]. intros slash ts1 Hc.
    apply consume_OK_inv in Hc as [(-> & t & -> & Hs) | (-> & -> & _)];
      [|apply ret_finished].
    pose proof (advances_sym _ _ ts1 Hs) as Ha.
    pose proof (advances_length _ _ Ha).
    pose proof (consumes_lparen _ _ (advances_consumes _ _ Ha)).
    apply bind_finished; [apply HP; lia|]. intros rhs ts2 H2.
    pose proof (HM _ _ _ H2) as Ha2.
    pose proof (advances_length _ _ Ha2).
    pose proof (consumes_lparen _ _ (advances_consumes _ _ Ha2)).
    apply IH; lia.
Qed.

(** Three frames of the call stack for each level of parentheses, and as
    many iterations of a loop as there are tokens, are enough. *)
Lemma parser_halts d : forall k ts,
  (length ts <= k)%nat ->
  ((3 * count_lparen ts + 3 <= d)%nat -> finished (expr d k ts)) /\
  ((3 * count_lparen ts + 2 <= d)%nat -> finished (mul d k ts)) /\
  ((3 * count_lparen ts + 1 <= d)%nat -> finished (primary d k ts)).
Proof.
  induction d as [|d IH]; intros k ts Hk; [repeat split; lia|].
  destruct (parser_moves d k) as (Me & Mm & Mp).
  repeat split; intros Hd.
  - rewrite expr_S. apply bind_finished; [apply IH; lia|]. intros node ts1 H1.
    pose proof (Mm _ _ _ H1) as Ha. pose proof (advances_length _ _ Ha).
    pose proof (consumes_lparen _ _ (advances_consumes _ _ Ha)).
    apply expr_loop_halts with (L := k) (N := count_lparen ts);
      [|assumption|lia..].
    intros ts' HL HN. apply IH; lia.
  - rewrite mul_S. apply bind_finished; [apply IH; lia|]. intros node ts1 H1.
    pose proof (Mp _ _ _ H1) as Ha. pose proof (advances_length _ _ Ha).
    pose proof (consumes_lparen _ _ (advances_consumes _ _ Ha)).
    apply mul_loop_halts with (L := k) (N := count_lparen ts);
      [|assumption|lia..].
    intros ts' HL HN. apply IH; lia.
  - rewrite primary_S.
    apply bind_finished; [apply consume_finished|]. intros paren ts1 Hc.
    apply consume_OK_inv in Hc as [(-> & t & -> & Hs) | (-> & -> & _)].
    + rewrite (count_lparen_sym _ _ Hs) in Hd. cbn [length] in Hk.
      apply bind_finished; [apply IH; lia|]. intros node ts2 _.
      apply bind_finished; [apply expect_finished|]. intros u ts3 _.
      apply ret_finished.
    + apply bind_finished; [apply expect_number_finished|]. intros v ts2 _.
      apply ret_finished.
Qed.

(** ** The parser: the cursor never leaves a list that ends with [TK_EOF] *)

Lemma eof_terminated_cons ts : eof_terminated ts -> exists t next, ts = t :: next.
Proof.
  intros (body & e & -> & _). destruct body as [|t body]; simpl; eauto.
Qed.

Lemma consumes_eof_terminated ts ts' :
  consumes ts ts' -> eof_terminated ts -> eof_terminated ts'.
Proof.
  intros (pre & -> & F) (body & e & E & He).
  destruct ts' as [|t ts'] using rev_ind.
  - rewrite app_nil_r in E. subst pre. apply Forall_app in F as [_ F].
    inversion F; subst. contradiction.
  - rewrite app_assoc in E. apply app_inj_tail in E as [_ ->].
    now exists ts', e.
Qed.

Lemma bind_not_null {A B} (m : M A) (f : A -> M B) ts :
  m ts <> NullDeref ->
  (forall a ts1, m ts = OK (a, ts1) -> f a ts1 <> NullDeref) ->
  bind m f ts <> NullDeref.
Proof.
  intros Hm Hf. unfold bind.
  destruct (m ts) as [[a ts1]| | |]; try discriminate; auto.
Qed.

Lemma consume_safe c : safe (consume c).
Proof.
  intros ts H. apply eof_terminated_cons in H as (t & next & ->).
  unfold consume. destruct (_ || _); discriminate.
Qed.

Lemma expect_safe c : safe (expect c).
Proof.
  intros ts H. apply eof_terminated_cons in H as (t & next & ->).
  unfold expect, error_at. destruct (_ || _); discriminate.
Qed.

Lemma expect_number_safe : safe expect_number.
Proof.
  intros ts H. apply eof_terminated_cons in H as (t & next & ->).
  unfold expect_number, error_at. destruct (negb _); discriminate.
Qed.

Lemma expr_loop_safe P :
  safe P -> moves P -> forall k node, safe (expr_loop P k node).
Proof.
  intros HP HM. induction k as [|k IH]; intros node ts Hts; [discriminate|].
  rewrite expr_loop_S.
  apply bind_not_null; [now apply consume_safe|]. intros plus ts1 Hc.
  apply consume_OK_inv in Hc as [(-> & t & -> & Hs) | (-> & -> & _)].
  - assert (H1 : eof_terminated ts1).
    { eapply consumes_eof_terminated; [|exact Hts].
      eapply advances_consumes, advances_sym, Hs. }
    apply bind_not_null; [now apply HP|]. intros rhs ts2 H2. apply IH.
    eapply consumes_eof_terminated; [|exact H1].
    eapply advances_consumes, HM, H2.
  - apply bind_not_null; [now apply consume_safe|]. intros minus ts1 Hc.
    apply consume_OK_inv in Hc as [(-> & t & -> & Hs) | (-> & -> & _)];
      [|discriminate].
    assert (H1 : eof_terminated ts1).
    { eapply consumes_eof_terminated; [|exact Hts].
      eapply advances_consumes, advances_sym, Hs. }
    apply bind_not_null; [now apply HP|]. intros rhs ts2 H2. apply IH.
    eapply consumes_eof_terminated; [|exact H1].
    eapply advances_consumes, HM, H2.
Qed.

Lemma mul_loop_safe P :
  safe P -> moves P -> forall k node, safe (mul_loop P k node).
Proof.
  intros HP HM. induction k as [|k IH]; intros node ts Hts; [discriminate|].
  rewrite mul_loop_S.
  apply bind_not_null; [now apply consume_safe|]. intros star ts1 Hc.
  apply consume_OK_inv in Hc as [(-> & t & -> & Hs) | (-> & -> & _)].
  - assert (H1 : eof_terminated ts1).
    { eapply consumes_eof_terminated; [|exact Hts].
      eapply advances_consumes, advances_sym, Hs. }
    apply bind_not_null; [now apply HP|]. intros rhs ts2 H2. apply IH.
    eapply consumes_eof_terminated; [|exact H1].
    eapply advances_consumes, HM, H2.
  - apply bind_not_null; [now apply consume_safe|]. intros slash ts1 Hc.
    apply consume_OK_inv in Hc as [(-> & t & -> & Hs) | (-> & -> & _)];
      [|discriminate].
    assert (H1 : eof_terminated ts1).
    { eapply consumes_eof_terminated; [|exact Hts].
      eapply advances_consumes, advances_sym, Hs. }
    apply bind_not_null; [now apply HP|]. intros rhs ts2 H2. apply IH.
    eapply consumes_eof_terminated; [|exact H1].
    eapply advances_consumes, HM, H2.
Qed.

Lemma parser_safe d : forall k,
  safe (expr d k) /\ safe (mul d k) /\ safe (primary d k).
Proof.
  induction d as [|d IH]; intros k; [repeat split; intros ts _; discriminate|].
  destruct (IH k) as (Se & Sm & Sp).
  destruct (parser_moves d k) as (Me & Mm & Mp).
  repeat split; intros ts Hts.
  - rewrite expr_S. apply bind_not_null; [now apply Sm|]. intros node ts1 H1.
    apply expr_loop_safe; try assumption.
    eapply consumes_eof_terminated; [|exact Hts].
    eapply advances_consumes, Mm, H1.
  - rewrite mul_S. apply bind_not_null; [now apply Sp|]. intros node ts1 H1.
    apply mul_loop_safe; try assumption.
    eapply consumes_eof_terminated; [|exact Hts].
    eapply advances_consumes, Mp, H1.
  - rewrite primary_S.
    apply bind_not_null; [now apply consume_safe|]. intros paren ts1 Hc.
    apply consume_OK_inv in Hc as [(-> & t & -> & Hs) | (-> & -> & _)].
    + assert (H1 : eof_terminated ts1).
      { eapply consumes_eof_terminated; [|exact Hts].
        eapply advances_consumes, advances_sym, Hs. }
      apply bind_not_null; [now apply Se|]. intros node ts2 H2.
      apply bind_not_null; [|discriminate].
      apply expect_safe.
      eapply consumes_eof_terminated; [|exact H1].
      eapply advances_consumes, Me, H2.
    + apply bind_not_null; [now apply expect_number_safe|]. discriminate.
Qed.

(** ** The parser follows the grammar *)

Lemma refines_OK {A} (P P' : M A) ts x :
  refines P P' -> P ts = OK x -> P' ts = OK x.
Proof. intros H E. rewrite <- E. apply H. rewrite E. discriminate. Qed.

Lemma is_sym_inj c c' t : is_sym c t -> is_sym c' t -> c = c'.
Proof. intros [_ H] [_ H']. congruence. Qed.

Lemma is_sym_other c c' t : is_sym c t -> c <> c' -> ~ is_sym c' t.
Proof. intros H N H'. apply N. eapply is_sym_inj; eassumption. Qed.

Lemma Primary_num t rest :
  kind t = TK_NUM -> Primary (t :: rest) (NumNode (val t), rest).
Proof.
  intros Hk. exists 1%nat, 0%nat. rewrite primary_S.
  erewrite bind_OK; [|apply consume_other; intros [H _]; congruence].
  cbn beta iota. erewrite bind_OK; [|now apply expect_number_num].
  reflexivity.
Qed.

Lemma Primary_paren lp ts1 node rp rest :
  is_sym "(" lp -> Expr_ ts1 (node, rp :: rest) -> is_sym ")" rp ->
  Primary (lp :: ts1) (node, rest).
Proof.
  intros Hl (d & k & E) Hr. exists (S d), k. rewrite primary_S.
  erewrite bind_OK; [|now apply consume_sym]. cbn beta iota.
  erewrite bind_OK; [|exact E].
  erewrite bind_OK; [|now apply expect_sym]. reflexivity.
Qed.

Lemma Mul_intro ts node ts1 x :
  Primary ts (node, ts1) -> MulLoop node ts1 x -> Mul ts x.
Proof.
  intros (d1 & k1 & E1) (d2 & k2 & E2).
  exists (S (Nat.max d1 d2)), (Nat.max k1 k2). rewrite mul_S.
  erewrite bind_OK;
    [|eapply refines_OK; [apply parser_mono with (d := d1) (k := k1); lia | exact E1]].
  eapply refines_OK; [|exact E2].
  apply mul_loop_mono; [apply parser_mono|]; lia.
Qed.

Lemma Expr_intro ts node ts1 x :
  Mul ts (node, ts1) -> ExprLoop node ts1 x -> Expr_ ts x.
Proof.
  intros (d1 & k1 & E1) (d2 & k2 & E2).
  exists (S (Nat.max d1 d2)), (Nat.max k1 k2). rewrite expr_S.
  erewrite bind_OK;
    [|eapply refines_OK; [apply parser_mono with (d := d1) (k := k1); lia | exact E1]].
  eapply refines_OK; [|exact E2].
  apply expr_loop_mono; [apply parser_mono|]; lia.
Qed.

Lemma MulLoop_stop node ts : stops_mul ts -> MulLoop node ts (node, ts).
Proof.
  intros (t & next & -> & N1 & N2). exists 0%nat, 1%nat. rewrite mul_loop_S.
  erewrite bind_OK; [|now apply consume_other]. cbn beta iota.
  erewrite bind_OK; [|now apply consume_other]. reflexivity.
Qed.

Lemma ExprLoop_stop node ts : stops_expr ts -> ExprLoop node ts (node, ts).
Proof.
  intros (t & next & -> & N1 & N2). exists 0%nat, 1%nat. rewrite expr_loop_S.
  erewrite bind_OK; [|now apply consume_other]. cbn beta iota.
  erewrite bind_OK; [|now apply consume_other]. reflexivity.
Qed.

Lemma MulLoop_star node t ts1 rhs ts2 x :
  is_sym "*" t -> Primary ts1 (rhs, ts2) ->
  MulLoop (BinNode ND_MUL node rhs) ts2 x ->
  MulLoop node (t :: ts1) x.
Proof.
  intros Hs (d1 & k1 & E1) (d2 & k2 & E2).
  exists (Nat.max d1 d2), (S (Nat.max k1 k2)). rewrite mul_loop_S.
  erewrite bind_OK; [|now apply consume_sym]. cbn beta iota.
  erewrite bind_OK;
    [|eapply refines_OK; [apply parser_mono with (d := d1) (k := k1); lia | exact E1]].
  eapply refines_OK; [|exact E2].
  apply mul_loop_mono; [apply parser_mono|]; lia.
Qed.

Lemma MulLoop_slash node t ts1 rhs ts2 x :
  is_sym "/" t -> Primary ts1 (rhs, ts2) ->
  MulLoop (BinNode ND_DIV node rhs) ts2 x ->
  MulLoop node (t :: ts1) x.
Proof.
  intros Hs (d1 & k1 & E1) (d2 & k2 & E2).
  exists (Nat.max d1 d2), (S (Nat.max k1 k2)). rewrite mul_loop_S.
  erewrite bind_OK;
    [|apply consume_other; apply (is_sym_other _ _ _ Hs); discriminate].
  cbn beta iota.
  erewrite bind_OK; [|now apply consume_sym]. cbn beta iota.
  erewrite bind_OK;
    [|eapply refines_OK; [apply parser_mono with (d := d1) (k := k1); lia | exact E1]].
  eapply refines_OK; [|exact E2].
  apply mul_loop_mono; [apply parser_mono|]; lia.
Qed.

Lemma ExprLoop_plus node t ts1 rhs ts2 x :
  is_sym "+" t -> Mul ts1 (rhs, ts2) ->
  ExprLoop (BinNode ND_ADD node rhs) ts2 x ->
  ExprLoop node (t :: ts1) x.
Proof.
  intros Hs (d1 & k1 & E1) (d2 & k2 & E2).
  exists (Nat.max d1 d2), (S (Nat.max k1 k2)). rewrite expr_loop_S.
  erewrite bind_OK; [|now apply consume_sym]. cbn beta iota.
  erewrite bind_OK;
    [|eapply refines_OK; [apply parser_mono with (d := d1) (k := k1); lia | exact E1]].
  eapply refines_OK; [|exact E2].
  apply expr_loop_mono; [apply parser_mono|]; lia.
Qed.

Lemma ExprLoop_minus node t ts1 rhs ts2 x :
  is_sym "-" t -> Mul ts1 (rhs, ts2) ->
  ExprLoop (BinNode ND_SUB node rhs) ts2 x ->
  ExprLoop node (t :: ts1) x.
Proof.
  intros Hs (d1 & k1 & E1) (d2 & k2 & E2).
  exists (Nat.max d1 d2), (S (Nat.max k1 k2)). rewrite expr_loop_S.
  erewrite bind_OK;
    [|apply consume_other; apply (is_sym_other _ _ _ Hs); discriminate].
  cbn beta iota.
  erewrite bind_OK; [|now apply consume_sym]. cbn beta iota.
  erewrite bind_OK;
    [|eapply refines_OK; [apply parser_mono with (d := d1) (k := k1); lia | exact E1]].
  eapply refines_OK; [|exact E2].
  apply expr_loop_mono; [apply parser_mono|]; lia.
Qed.

Lemma stops_mul_sym c t next :
  is_sym c t -> c <> "*"%char -> c <> "/"%char -> stops_mul (t :: next).
Proof.
  intros Hs N1 N2. exists t, next. repeat split; eapply is_sym_other; eassumption.
Qed.

Lemma stops_expr_sym c t next :
  is_sym c t -> c <> "+"%char -> c <> "-"%char -> stops_expr (t :: next).
Proof.
  intros Hs N1 N2. exists t, next. repeat split; eapply is_sym_other; eassumption.
Qed.

(** On the tokens of a derivation of the grammar, followed by [rest], each
    parsing function builds the tree of the derivation and goes on as it
    would from [rest] with that tree. *)
Lemma grammar_parses :
  (forall ls e, g_expr ls e ->
     forall ts, Forall2 tok_lex ts ls ->
     forall rest x, stops_mul rest ->
       ExprLoop (node_of e) rest x -> Expr_ (ts ++ rest) x) /\
  (forall ls e, g_mul ls e ->
     forall ts, Forall2 tok_lex ts ls ->
     forall rest x,
       MulLoop (node_of e) rest x -> Mul (ts ++ rest) x) /\
  (forall ls e, g_primary ls e ->
     forall ts, Forall2 tok_lex ts ls ->
     forall rest, Primary (ts ++ rest) (node_of e, rest)).
Proof.
  apply grammar_ind.
  - (* expr = mul *)
    intros ls e _ IH ts F rest x Hstop HL.
    eapply Expr_intro; [|exact HL].
    apply IH; [assumption|]. now apply MulLoop_stop.
  - (* expr = expr "+" mul *)
    intros ls1 ls2 a b _ IH1 _ IH2 ts F rest x Hstop HL.
    apply Forall2_app_inv_r in F as (ts1 & ts' & F1 & F' & ->).
    inversion F' as [|t l ts2 ls2' Ht F2]; subst.
    rewrite <- app_assoc. cbn [app].
    apply IH1; [assumption | eapply stops_mul_sym; [exact Ht|discriminate..] |].
    eapply ExprLoop_plus; [exact Ht | | exact HL].
    apply IH2; [assumption|]. now apply MulLoop_stop.
  - (* expr = expr "-" mul *)
    intros ls1 ls2 a b _ IH1 _ IH2 ts F rest x Hstop HL.
    apply Forall2_app_inv_r in F as (ts1 & ts' & F1 & F' & ->).
    inversion F' as [|t l ts2 ls2' Ht F2]; subst.
    rewrite <- app_assoc. cbn [app].
    apply IH1; [assumption | eapply stops_mul_sym; [exact Ht|discriminate..] |].
    eapply ExprLoop_minus; [exact Ht | | exact HL].
    apply IH2; [assumption|]. now apply MulLoop_stop.
  - (* mul = primary *)
    intros ls e _ IH ts F rest x HL.
    eapply Mul_intro; [|exact HL]. now apply IH.
  - (* mul = mul "*" primary *)
    intros ls1 ls2 a b _ IH1 _ IH2 ts F rest x HL.
    apply Forall2_app_inv_r in F as (ts1 & ts' & F1 & F' & ->).
    inversion F' as [|t l ts2 ls2' Ht F2]; subst.
    rewrite <- app_assoc. cbn [app].
    apply IH1; [assumption|].
    eapply MulLoop_star; [exact Ht | | exact HL]. now apply IH2.
  - (* mul = mul "/" primary *)
    intros ls1 ls2 a b _ IH1 _ IH2 ts F rest x HL.
    apply Forall2_app_inv_r in F as (ts1 & ts' & F1 & F' & ->).
    inversion F' as [|t l ts2 ls2' Ht F2]; subst.
    rewrite <- app_assoc. cbn [app].
    apply IH1; [assumption|].
    eapply MulLoop_slash; [exact Ht | | exact HL]. now apply IH2.
  - (* primary = num *)
    intros n ts F rest.
    inversion F as [|t l ts' ls' Ht F']; subst. inversion F'; subst.
    destruct Ht as [Hk Hv]. cbn [app node_of]. rewrite <- Hv. now apply Primary_num.
  - (* primary = "(" expr ")" *)
    intros ls e _ IH ts F rest.
    inversion F as [|lp l ts' ls' Hl F']; subst.
    apply Forall2_app_inv_r in F' as (ts1 & trp & F1 & Frp & ->).
    inversion Frp as [|rp l' nil1 nil2 Hr Fnil]; subst. inversion Fnil; subst.
    cbn [app]. rewrite <- app_assoc. cbn [app].
    eapply Primary_paren; [exact Hl | | exact Hr].
    apply IH; [assumption | eapply stops_mul_sym; [exact Hr|discriminate..] |].
    apply ExprLoop_stop. eapply stops_expr_sym; [exact Hr|discriminate..].
Qed.

Lemma expr_agree d k d' k' ts :
  finished (expr d k ts) -> finished (expr d' k' ts) ->
  expr d' k' ts = expr d k ts.
Proof.
  intros H H'.
  rewrite <- (expr_mono d (Nat.max d d') k (Nat.max k k') ts) by (lia || assumption).
  rewrite <- (expr_mono d' (Nat.max d d') k' (Nat.max k k') ts) by (lia || assumption).
  reflexivity.
Qed.

Lemma count_lparen_le ts : (count_lparen ts <= length ts)%nat.
Proof. apply filter_length_le. Qed.

(** With fuel for three frames per token and one iteration per token, [expr]
    finishes. *)
Lemma expr_finished fuel ts :
  (3 * length ts + 3 <= fuel)%nat -> finished (expr fuel fuel ts).
Proof.
  intros H. pose proof (count_lparen_le ts). apply parser_halts; lia.
Qed.

End Parser.

(** ** The lexer: fuel, shape of the token list *)

Section LexerFacts.

Variable user_input : cstring.

Lemma tokenize_loop_mono fuel : forall fuel' p,
  (fuel <= fuel')%nat ->
  finished (tokenize_loop user_input fuel p) ->
  tokenize_loop user_input fuel' p = tokenize_loop user_input fuel p.
Proof.
  induction fuel as [|fuel IH]; intros fuel' p Hle Hfin; [now elim Hfin|].
  destruct fuel' as [|fuel']; [lia|].
  cbn [tokenize_loop] in *.
  destruct (Ascii.eqb (deref p) NUL); [reflexivity|].
  destruct (isspace (deref p)); [apply IH; [lia | assumption]|].
  destruct (strchr _ (deref p)).
  { rewrite (IH fuel' (tl p)); [reflexivity | lia |].
    destruct (tokenize_loop user_input fuel (tl p)); try discriminate.
    now elim Hfin. }
  destruct (isdigit (deref p)); [|reflexivity].
  destruct (strtol p) as [v endptr].
  rewrite (IH fuel' endptr); [reflexivity | lia |].
  destruct (tokenize_loop user_input fuel endptr); try discriminate.
  now elim Hfin.
Qed.

Lemma tokenize_loop_lexes fuel p ts :
  tokenize_loop user_input fuel p = OK ts -> lexes p ts.
Proof.
  intros E.
  assert (Hfin : finished (tokenize_loop user_input fuel p))
    by (rewrite E; discriminate).
  pose proof (tokenize_loop_mono fuel (Nat.max fuel (S (length p))) p
                ltac:(lia) Hfin) as Hm.
  destruct (tokenize_loop_spec user_input (Nat.max fuel (S (length p))) p ltac:(lia))
    as [(ts' & E' & L) | (pre & c & rest & _ & _ & _ & _ & E')].
  - congruence.
  - rewrite Hm, E in E'. discriminate.
Qed.

Lemma tokenize_loop_literals fuel : forall p ts,
  tokenize_loop user_input fuel p = OK ts -> Forall literal_token ts.
Proof.
  induction fuel as [|fuel IH]; intros p ts E; [discriminate|].
  cbn [tokenize_loop] in E.
  destruct (Ascii.eqb (deref p) NUL).
  { injection E as <-. constructor; [discriminate | constructor]. }
  destruct (isspace (deref p)); [now apply IH in E|].
  destruct (strchr _ (deref p)).
  { destruct (tokenize_loop user_input fuel (tl p)) as [rest| | |] eqn:Er;
      try discriminate.
    injection E as <-. constructor; [discriminate | now apply IH in Er]. }
  destruct (isdigit (deref p)) eqn:Hd; [|discriminate].
  destruct (digit_run p) as (ds & q & -> & Hds & Hq).
  assert (Hne : ds <> []) by (intros ->; cbn [app] in Hd; congruence).
  rewrite (strtol_run ds q Hds Hq) in E.
  destruct (tokenize_loop user_input fuel q) as [rest| | |] eqn:Er;
    try discriminate.
  injection E as <-. constructor; [|now apply IH in Er].
  intros _. exists ds, q. now repeat split.
Qed.

Lemma lexes_shape p ts :
  lexes p ts ->
  exists body q,
    ts = body ++ [mkToken TK_EOF 0 q] /\
    Forall (fun t => kind t <> TK_EOF) body /\
    deref q = NUL.
Proof.
  induction 1 as [p H | c p ts _ _ IH | c p ts _ _ IH | ds p v ts _ _ _ _ IH].
  - exists [], p. repeat split; [constructor | assumption].
  - exact IH.
  - destruct IH as (body & q & -> & F & Hq).
    exists (mkToken TK_RESERVED 0 (c :: p) :: body), q.
    repeat split; [|assumption]. constructor; [discriminate | assumption].
  - destruct IH as (body & q & -> & F & Hq).
    exists (mkToken TK_NUM v (ds ++ p) :: body), q.
    repeat split; [|assumption]. constructor; [discriminate | assumption].
Qed.

Lemma lexes_eof_terminated p ts : lexes p ts -> eof_terminated ts.
Proof.
  intros H. apply lexes_shape in H as (body & q & -> & _ & _).
  now exists body, (mkToken TK_EOF 0 q).
Qed.

Lemma lexes_length p ts : lexes p ts -> (length ts <= S (length p))%nat.
Proof.
  induction 1 as [p H | c p ts _ _ IH | c p ts _ _ IH | ds p v ts Hne _ _ _ IH];
    cbn [length] in *; try lia.
  rewrite length_app. destruct ds; [congruence | cbn [length]; lia].
Qed.

(** The tokens of a string that spells lexemes. *)
Lemma spells_tokenize s ls :
  spells s ls ->
  forall fuel, (length s < fuel)%nat ->
  exists ts,
    tokenize_loop user_input fuel s = OK (ts ++ [mkToken TK_EOF 0 []]) /\
    Forall2 tok_lex ts ls.
Proof.
  induction 1 as [| c s ls Hc _ IH | c s ls Hc _ IH | ds s ls Hne Hds Hs _ IH];
    intros fuel Hlen; (destruct fuel as [|fuel]; [lia|]).
  - exists []. split; [now apply tokenize_eof | constructor].
  - cbn [length] in Hlen. destruct (IH fuel ltac:(lia)) as (ts & E & F).
    exists ts. split; [|assumption]. now rewrite tokenize_space.
  - cbn [length] in Hlen. destruct (IH fuel ltac:(lia)) as (ts & E & F).
    exists (mkToken TK_RESERVED 0 (c :: s) :: ts). split.
    + rewrite tokenize_operator, E by assumption. reflexivity.
    + constructor; [|assumption]. now split.
  - rewrite length_app in Hlen.
    assert (0 < length ds)%nat by (destruct ds; [congruence | cbn; lia]).
    destruct (IH fuel ltac:(lia)) as (ts & E & F).
    exists (mkToken TK_NUM (literal_value ds) (ds ++ s) :: ts). split.
    + rewrite tokenize_number, E by assumption. reflexivity.
    + constructor; [|assumption]. now split.
Qed.

Lemma spells_length s ls : spells s ls -> (length ls <= length s)%nat.
Proof.
  induction 1 as [| c s ls _ _ IH | c s ls _ _ IH | ds s ls Hne _ _ _ IH];
    cbn [length] in *; try lia.
  rewrite length_app. destruct ds; [congruence | cbn [length]; lia].
Qed.

(** A well-formed expression is lexed and parsed into the tree of its
    derivation, and the cursor is left on the [TK_EOF] token. *)
Lemma parse_well_formed e fuel :
  well_formed user_input e ->
  (3 * length user_input + 6 <= fuel)%nat ->
  exists ts,
    tokenize user_input fuel = OK ts /\
    expr user_input fuel fuel ts = OK (node_of e, [mkToken TK_EOF 0 []]).
Proof.
  intros (ls & Hs & Hg) Hfuel.
  destruct (spells_tokenize _ _ Hs fuel ltac:(lia)) as (ts & E & F).
  exists (ts ++ [mkToken TK_EOF 0 []]). split; [exact E|].
  pose proof (Forall2_length F) as HL. pose proof (spells_length _ _ Hs).
  assert (Hstop_m : stops_mul [mkToken TK_EOF 0 []]).
  { eexists _, _. repeat split; intros [K _]; discriminate. }
  assert (Hstop_e : stops_expr [mkToken TK_EOF 0 []]).
  { eexists _, _. repeat split; intros [K _]; discriminate. }
  destruct grammar_parses with (user_input := user_input) as (G & _ & _).
  destruct (G _ _ Hg ts F _ _ Hstop_m (ExprLoop_stop user_input _ _ Hstop_e))
    as (d & k & Ed).
  rewrite <- Ed. apply expr_agree.
  - rewrite Ed. discriminate.
  - apply expr_finished. rewrite length_app. cbn [length]. lia.
Qed.

End LexerFacts.

Lemma node_of_eval e : literals_fit e -> eval (node_of e) = value e.
Proof.
  induction e as [n | a IHa b IHb | a IHa b IHb | a IHa b IHb | a IHa b IHb];
    cbn [literals_fit node_of eval value].
  - intros H. unfold INT_MAX, LONG_MAX in *.
    destruct (n >? 2 ^ 63 - 1) eqn:E; [lia|].
    rewrite int_of_long_fits; [reflexivity | unfold INT_MIN, INT_MAX; lia].
  - intros [Ha Hb]. now rewrite IHa, IHb.
  - intros [Ha Hb]. now rewrite IHa, IHb.
  - intros [Ha Hb]. now rewrite IHa, IHb.
  - intros [Ha Hb]. now rewrite IHa, IHb.
Qed.

(** ** The generated code on the machine *)

Lemma run_app c1 c2 m :
  ~ In Ret c1 ->
  run (c1 ++ c2) m =
  match run c1 m with
  | Some m' => run c2 m'
  | None => None
  end.
Proof.
  revert m. induction c1 as [|i c1 IH]; intros m Hret; [reflexivity|].
  assert (Hi : i <> Ret) by (intros ->; apply Hret; now left).
  assert (Hc : ~ In Ret c1) by (intros H; apply Hret; now right).
  destruct i; try congruence; cbn [app run];
    (destruct (step _ m) as [m'|]; [now apply IH | reflexivity]).
Qed.

Lemma gen_no_ret node : ~ In Ret (gen node).
Proof.
  induction node as [v | k lhs IHl rhs IHr]; cbn [gen].
  - intros [H|[]]. discriminate.
  - destruct k; rewrite ?in_app_iff; cbn [In]; intuition discriminate.
Qed.

Lemma stack_height_app c1 c2 h :
  stack_height (c1 ++ c2) h =
  match stack_height c1 h with
  | Some h' => stack_height c2 h'
  | None => None
  end.
Proof.
  revert h. induction c1 as [|i c1 IH]; intros h; [reflexivity|].
  destruct i; cbn [app stack_height]; try apply IH;
    (destruct h; [reflexivity | apply IH]).
Qed.

Lemma gen_stack_height node : forall h, stack_height (gen node) h = Some (S h).
Proof.
  induction node as [v | k lhs IHl rhs IHr]; intros h; [reflexivity|].
  destruct k; cbn [gen]; try reflexivity;
    rewrite stack_height_app, IHl, stack_height_app, IHr; reflexivity.
Qed.

Lemma idiv64_range a b q :
  idiv64 a b = Some q -> - 2 ^ 63 <= q <= 2 ^ 63 - 1.
Proof.
  unfold idiv64. destruct (b =? 0); [discriminate|].
  destruct (Z.quot a b <? - 2 ^ 63) eqn:E1; [discriminate|].
  destruct (2 ^ 63 - 1 <? Z.quot a b) eqn:E2; [discriminate|].
  cbn. intros [= <-]. lia.
Qed.

Lemma eval64_range node v :
  eval64 node = Some v -> - 2 ^ 63 <= v <= 2 ^ 63 - 1.
Proof.
  destruct node as [n | k lhs rhs]; cbn [eval64].
  - intros [= <-]. pose proof (int_of_long_range n).
    unfold INT_MIN, INT_MAX in *. lia.
  - destruct k; try (intros [= <-]; lia);
      destruct (eval64 lhs) as [a|]; try discriminate;
      destruct (eval64 rhs) as [b|]; try discriminate;
      try (intros [= <-]; apply wrap64_range).
    apply idiv64_range.
Qed.

(** [cqo] makes [rdx:rax] the 128-bit sign extension of [rax]. *)
Lemma cqo_dividend a :
  - 2 ^ 63 <= a <= 2 ^ 63 - 1 ->
  (if a <? 0 then -1 else 0) * 2 ^ 64 + a mod 2 ^ 64 = a.
Proof.
  intros H. destruct (a <? 0) eqn:E.
  - apply Z.ltb_lt in E.
    replace (a mod 2 ^ 64) with (a + 2 ^ 64); [lia|].
    apply Z.mod_unique with (q := -1); lia.
  - apply Z.ltb_ge in E. rewrite Z.mod_small; lia.
Qed.

(** The five lines printed for [ND_DIV], on the operands [a] and [b]. *)
Lemma run_division a b s m :
  - 2 ^ 63 <= a <= 2 ^ 63 - 1 ->
  stack m = b :: a :: s ->
  run [PopRdi; PopRax; Cqo; IdivRdi; PushRax] m =
  match idiv64 a b with
  | Some q => Some (mkMachine q b (Z.rem a b) (q :: s))
  | None => None
  end.
Proof.
  intros Ha Hs. cbn [run step]. rewrite Hs. cbn [run step stack rax rdi rdx].
  rewrite cqo_dividend by assumption. unfold idiv64.
  destruct (b =? 0); [reflexivity|].
  destruct (_ || _); reflexivity.
Qed.

(** The code of a node pushes the value of the node on the stack it finds,
    or faults when a division of the node does. *)
Lemma gen_run node : forall m,
  match eval64 node with
  | Some v => exists m', run (gen node) m = Some m' /\ stack m' = v :: stack m
  | None => run (gen node) m = None
  end.
Proof.
  induction node as [n | k lhs IHl rhs IHr]; intros m.
  - cbn. eexists. split; reflexivity.
  - destruct k; cbn [gen eval64];
      try (eexists; split; reflexivity);
      rewrite run_app by apply gen_no_ret;
      specialize (IHl m);
      (destruct (eval64 lhs) as [a|] eqn:El; [|now rewrite IHl]);
      destruct IHl as (m1 & -> & S1);
      rewrite run_app by apply gen_no_ret;
      specialize (IHr m1);
      (destruct (eval64 rhs) as [b|] eqn:Er; [|now rewrite IHr]);
      destruct IHr as (m2 & -> & S2); rewrite S1 in S2.
    + cbn [app run step]. rewrite S2. cbn. eexists. split; reflexivity.
    + cbn [app run step]. rewrite S2. cbn. eexists. split; reflexivity.
    + cbn [app run step]. rewrite S2. cbn. eexists. split; reflexivity.
    + change ([PopRdi; PopRax] ++ [Cqo; IdivRdi] ++ [PushRax])
        with [PopRdi; PopRax; Cqo; IdivRdi; PushRax].
      rewrite (run_division a b (stack m) m2 (eval64_range _ _ El) S2).
      destruct (idiv64 a b); [|reflexivity]. eexists. split; reflexivity.
Qed.

(** ** The whole program: more fuel does not change a run *)

Lemma compile_mono user_input fuel fuel' :
  (fuel <= fuel')%nat ->
  compile user_input fuel <> Unfinished ->
  compile user_input fuel' = compile user_input fuel.
Proof.
  intros Hle. unfold compile, tokenize.
  destruct (tokenize_loop user_input fuel user_input) as [ts| | |] eqn:Et;
    try (intros _; rewrite (tokenize_loop_mono user_input fuel fuel') , Et
           by (assumption || (rewrite Et; discriminate)); reflexivity);
    [|intros H; now elim H].
  rewrite (tokenize_loop_mono user_input fuel fuel'), Et
    by (assumption || (rewrite Et; discriminate)).
  destruct (expr user_input fuel fuel ts) as [[node rest]| | |] eqn:Ee;
    try (intros _; rewrite (expr_mono user_input fuel fuel' fuel fuel'), Ee
           by (assumption || (rewrite Ee; discriminate)); reflexivity).
  intros H; now elim H.
Qed.

Lemma main_mono fuel fuel' argv :
  (fuel <= fuel')%nat ->
  main fuel argv <> Unfinished ->
  main fuel' argv = main fuel argv.
Proof.
  intros Hle. unfold main. destruct (negb _); [reflexivity|].
  now apply compile_mono.
Qed.

(** A run that exits does so with any larger fuel. *)
Lemma main_exits fuel0 argv out err status :
  main fuel0 argv = Exits out err status ->
  forall fuel, (fuel0 <= fuel)%nat -> main fuel argv = Exits out err status.
Proof.
  intros E fuel Hle. rewrite <- E. apply main_mono; [assumption|].
  rewrite E. discriminate.
Qed.

(** * The claims *)

(** C1 (amended). For every well-formed expression whose literals are at
    most [INT_MAX], the lexer followed by [expr] finishes without error on
    the tree whose exact evaluation (division truncating toward zero) is the
    mathematical value of the expression, under the standard precedence and
    left associativity of the grammar; the cursor is left on the end-of-input
    token. The programs compiled from "2+3*4", "8-3-2" and "(2+3)*4" return
    14, 3 and 20. *)
Theorem well_formed_expr_value :
  (forall (user_input : cstring) (e : Expr) (fuel : nat),
      well_formed user_input e ->
      literals_fit e ->
      (3 * length user_input + 6 <= fuel)%nat ->
      exists ts node,
        tokenize user_input fuel = OK ts /\
        expr user_input fuel fuel ts = OK (node, [mkToken TK_EOF 0 []]) /\
        eval node = value e) /\
  (forall (fuel : nat) (m : Machine),
      (21 <= fuel)%nat ->
      returns (main fuel (cmdline "2+3*4")) m = Some 14 /\
      returns (main fuel (cmdline "8-3-2")) m = Some 3 /\
      returns (main fuel (cmdline "(2+3)*4")) m = Some 20).
Proof.
  split.
  - intros user_input e fuel Hwf Hfit Hfuel.
    destruct (parse_well_formed user_input e fuel Hwf Hfuel) as (ts & Et & Ee).
    exists ts, (node_of e). split; [exact Et|]. split; [exact Ee|].
    now apply node_of_eval.
  - intros fuel m Hfuel. split; [|split].
    + rewrite (main_mono 21 fuel) by (assumption || (vm_compute; discriminate)).
      vm_compute. reflexivity.
    + rewrite (main_mono 21 fuel) by (assumption || (vm_compute; discriminate)).
      vm_compute. reflexivity.
    + rewrite (main_mono 21 fuel) by (assumption || (vm_compute; discriminate)).
      vm_compute. reflexivity.
Qed.

Lemma well_formed_expr_value_witness :
  exists ts node,
    tokenize (list_ascii_of_string "2+3*4") 21 = OK ts /\
    expr (list_ascii_of_string "2+3*4") 21 21 ts = OK (node, [mkToken TK_EOF 0 []]) /\
    eval node = Some 14.
Proof.
  apply (proj1 well_formed_expr_value (list_ascii_of_string "2+3*4")
           (EAdd (ELit 2) (EMul (ELit 3) (ELit 4))) 21%nat).
  - exists [LNum 2; LSym "+"; LNum 3; LSym "*"; LNum 4]. split.
    + apply (spells_num ["2"%char]); [discriminate | reflexivity | reflexivity |].
      apply spells_sym; [reflexivity|].
      apply (spells_num ["3"%char]); [discriminate | reflexivity | reflexivity |].
      apply spells_sym; [reflexivity|].
      apply (spells_num ["4"%char] []); [discriminate | reflexivity | reflexivity |].
      apply spells_nil.
    + apply (g_expr_add [LNum 2] [LNum 3; LSym "*"; LNum 4]).
      * apply g_expr_mul, g_mul_primary, g_primary_num.
      * apply (g_mul_mul [LNum 3] [LNum 4]).
        -- apply g_mul_primary, g_primary_num.
        -- apply g_primary_num.
  - cbn. unfold INT_MAX. lia.
  - cbn. lia.
Defined.

(** C1 as stated fails on a literal above [INT_MAX]: "2147483648" is a
    well-formed expression of value 2147483648, and whenever lexing and
    parsing it succeed the tree evaluates to -2147483648. *)
Lemma literal_overflow_changes_value :
  well_formed (list_ascii_of_string "2147483648") (ELit 2147483648) /\
  value (ELit 2147483648) = Some 2147483648 /\
  (exists ts node rest,
      tokenize (list_ascii_of_string "2147483648") 36 = OK ts /\
      expr (list_ascii_of_string "2147483648") 36 36 ts = OK (node, rest)) /\
  forall fuel ts node rest,
    tokenize (list_ascii_of_string "2147483648") fuel = OK ts ->
    expr (list_ascii_of_string "2147483648") fuel fuel ts = OK (node, rest) ->
    eval node = Some (-2147483648).
Proof.
  assert (Hwf : well_formed (list_ascii_of_string "2147483648") (ELit 2147483648)).
  { exists [LNum 2147483648]. split.
    - apply (spells_num (list_ascii_of_string "2147483648") []);
        [discriminate | reflexivity | reflexivity | apply spells_nil].
    - apply g_expr_mul, g_mul_primary, g_primary_num. }
  split; [exact Hwf|]. split; [reflexivity|]. split.
  { eexists. eexists. eexists. split; [vm_compute; reflexivity|].
    vm_compute. reflexivity. }
  intros fuel ts node rest Et Ee.
  destruct (parse_well_formed _ _ (Nat.max fuel 36) Hwf ltac:(cbn [length list_ascii_of_string]; lia))
    as (ts' & Et' & Ee').
  unfold tokenize in *.
  rewrite (tokenize_loop_mono _ fuel (Nat.max fuel 36)), Et in Et'
    by (lia || (rewrite Et; discriminate)).
  injection Et' as <-.
  rewrite (expr_agree _ fuel fuel (Nat.max fuel 36) (Nat.max fuel 36)), Ee in Ee'
    by (rewrite ?Ee, ?Ee'; discriminate).
  injection Ee' as -> _. reflexivity.
Qed.

(** C2. For every node, the lines [gen] prints push exactly one value and
    pop nothing that was on the stack before them: statically, from a
    height of 0 of its own the fragment ends at height 1 without ever
    popping below 0; on the machine, when no division faults, the final
    stack is the value of the node on top of the untouched initial stack.
    So after the code of the root node the one value on the evaluation
    stack is the result of the expression, which [pop rax; ret] returns. *)
Theorem gen_stack_effect :
  forall node : Node,
    stack_height (gen node) 0 = Some 1%nat /\
    (forall m : Machine,
        match eval64 node with
        | Some v =>
            exists m', run (gen node) m = Some m' /\ stack m' = v :: stack m
        | None => run (gen node) m = None
        end) /\
    (forall m : Machine,
        returns (Exits ([IntelSyntax; GlobalMain; LabelMain] ++ gen node
                          ++ [PopRax; Ret]) None 0) m
        = eval64 node).
Proof.
  intros node. split; [apply gen_stack_height|]. split; [apply gen_run|].
  intros m. cbn [returns app run step].
  rewrite run_app by apply gen_no_ret.
  pose proof (gen_run node m) as H.
  destruct (eval64 node) as [v|].
  - destruct H as (m' & -> & S'). cbn [run step]. rewrite S'. reflexivity.
  - rewrite H. reflexivity.
Qed.

(** C3. [tokenize] is total: with fuel above the length of the input it
    returns, for every input, either a token list that ends with its only
    [TK_EOF] token and follows the lexical rules (white space skipped, one
    [TK_RESERVED] token for each of [+ - * / ( )], one [TK_NUM] token for
    each maximal run of digits), or the "cannot tokenize" error at the
    offset of the first character that is none of these. *)
Theorem tokenize_total :
  forall (user_input : cstring) (fuel : nat),
    (length user_input < fuel)%nat ->
    (exists body p,
        tokenize user_input fuel = OK (body ++ [mkToken TK_EOF 0 p]) /\
        Forall (fun t => kind t <> TK_EOF) body /\
        lexes user_input (body ++ [mkToken TK_EOF 0 p])) \/
    (exists pre c rest,
        user_input = pre ++ c :: rest /\
        forallb scannable pre = true /\
        scannable c = false /\ c <> NUL /\
        tokenize user_input fuel =
        Exit1 (Z.of_nat (length pre)) CannotTokenize).
Proof.
  intros user_input fuel Hfuel. unfold tokenize.
  destruct (tokenize_loop_spec user_input fuel user_input Hfuel)
    as [(ts & E & L) | (pre & c & rest & Hu & Hpre & Hc & Hn & E)].
  - left. destruct (lexes_shape _ _ L) as (body & q & -> & F & _).
    now exists body, q.
  - right. exists pre, c, rest. repeat split; try assumption.
    rewrite E. unfold error_at. f_equal.
    rewrite Hu at 1. rewrite length_app. lia.
Qed.

Lemma tokenize_total_witness :
  (exists body p,
      tokenize (list_ascii_of_string "1+a") 4 = OK (body ++ [mkToken TK_EOF 0 p]) /\
      Forall (fun t => kind t <> TK_EOF) body /\
      lexes (list_ascii_of_string "1+a") (body ++ [mkToken TK_EOF 0 p])) \/
  (exists pre c rest,
      list_ascii_of_string "1+a" = pre ++ c :: rest /\
      forallb scannable pre = true /\
      scannable c = false /\ c <> NUL /\
      tokenize (list_ascii_of_string "1+a") 4 =
      Exit1 (Z.of_nat (length pre)) CannotTokenize).
Proof.
  apply (tokenize_total (list_ascii_of_string "1+a") 4).
  cbn. lia.
Defined.

(** C4. The lines printed for a division are [cqo] then [idiv rdi] on the
    popped operands: on 64-bit operands [a] and [b] they leave the quotient
    of [a] by [b] truncated toward zero ([Z.quot]), [rdx:rax] being the sign
    extension of [a] when [idiv] runs; the program compiled from "7/2"
    returns 3. *)
Theorem division_truncates :
  (forall lhs rhs : Node,
      gen (BinNode ND_DIV lhs rhs) =
      gen lhs ++ gen rhs ++ [PopRdi; PopRax; Cqo; IdivRdi; PushRax]) /\
  (forall (m : Machine) (a b : Z) (s : list Z),
      - 2 ^ 63 <= a <= 2 ^ 63 - 1 ->
      b <> 0 ->
      - 2 ^ 63 <= Z.quot a b <= 2 ^ 63 - 1 ->
      stack m = b :: a :: s ->
      run [PopRdi; PopRax; Cqo] m =
        Some (mkMachine a b (if a <? 0 then -1 else 0) s) /\
      run [PopRdi; PopRax; Cqo; IdivRdi; PushRax] m =
        Some (mkMachine (Z.quot a b) b (Z.rem a b) (Z.quot a b :: s))) /\
  (forall (fuel : nat) (m : Machine),
      (15 <= fuel)%nat ->
      returns (main fuel (cmdline "7/2")) m = Some 3).
Proof.
  split; [reflexivity|]. split.
  - intros m a b s Ha Hb Hq Hs. split.
    + cbn [run step]. rewrite Hs. reflexivity.
    + rewrite (run_division a b s m Ha Hs). unfold idiv64.
      apply Z.eqb_neq in Hb. rewrite Hb.
      destruct (Z.quot a b <? - 2 ^ 63) eqn:E1; [apply Z.ltb_lt in E1; lia|].
      destruct (2 ^ 63 - 1 <? Z.quot a b) eqn:E2; [apply Z.ltb_lt in E2; lia|].
      reflexivity.
  - intros fuel m Hfuel.
    rewrite (main_mono 15 fuel) by (assumption || (vm_compute; discriminate)).
    vm_compute. reflexivity.
Qed.

Lemma division_truncates_witness :
  run [PopRdi; PopRax; Cqo] (mkMachine 0 0 0 [2; -7]) =
    Some (mkMachine (-7) 2 (-1) []) /\
  run [PopRdi; PopRax; Cqo; IdivRdi; PushRax] (mkMachine 0 0 0 [2; -7]) =
    Some (mkMachine (-3) 2 (-1) [-3]).
Proof.
  apply (proj1 (proj2 division_truncates) (mkMachine 0 0 0 [2; -7]) (-7) 2 []).
  - lia.
  - lia.
  - vm_compute. split; discriminate.
  - reflexivity.
Defined.

(** C5. [main] does not look at the cursor after [expr] returns: whenever
    lexing and parsing succeed, whatever tokens are left, the program prints
    the code of the parsed prefix and exits with status 0. So it does on
    "1+2)" and on "1 2", where the cursor is left before the [TK_EOF]
    token. *)
Theorem trailing_tokens_ignored :
  (forall (user_input : cstring) (fuel : nat) ts node rest,
      tokenize user_input fuel = OK ts ->
      expr user_input fuel fuel ts = OK (node, rest) ->
      compile user_input fuel =
      Exits ([IntelSyntax; GlobalMain; LabelMain] ++ gen node ++ [PopRax; Ret])
            None 0) /\
  (forall fuel : nat,
      (18 <= fuel)%nat ->
      (exists ts rest,
          tokenize (list_ascii_of_string "1+2)") fuel = OK ts /\
          expr (list_ascii_of_string "1+2)") fuel fuel ts =
            OK (BinNode ND_ADD (NumNode 1) (NumNode 2), rest) /\
          at_eof rest = OK (false, rest)) /\
      main fuel (cmdline "1+2)") =
      Exits [IntelSyntax; GlobalMain; LabelMain;
             PushImm 1; PushImm 2; PopRdi; PopRax; AddRaxRdi; PushRax;
             PopRax; Ret] None 0 /\
      (exists ts rest,
          tokenize (list_ascii_of_string "1 2") fuel = OK ts /\
          expr (list_ascii_of_string "1 2") fuel fuel ts = OK (NumNode 1, rest) /\
          at_eof rest = OK (false, rest)) /\
      main fuel (cmdline "1 2") =
      Exits [IntelSyntax; GlobalMain; LabelMain; PushImm 1; PopRax; Ret] None 0).
Proof.
  split.
  - intros user_input fuel ts node rest Et Ee. unfold compile.
    rewrite Et, Ee. reflexivity.
  - intros fuel Hfuel. split; [|split; [|split]].
    + unfold tokenize.
      rewrite (tokenize_loop_mono _ 18 fuel) by (assumption || (vm_compute; discriminate)).
      eexists. eexists. split; [vm_compute; reflexivity|].
      rewrite (expr_mono _ 18 fuel 18 fuel) by (assumption || (vm_compute; discriminate)).
      split; vm_compute; reflexivity.
    + apply main_exits with (fuel0 := 18%nat); [vm_compute; reflexivity | assumption].
    + unfold tokenize.
      rewrite (tokenize_loop_mono _ 18 fuel) by (assumption || (vm_compute; discriminate)).
      eexists. eexists. split; [vm_compute; reflexivity|].
      rewrite (expr_mono _ 18 fuel 18 fuel) by (assumption || (vm_compute; discriminate)).
      split; vm_compute; reflexivity.
    + apply main_exits with (fuel0 := 18%nat); [vm_compute; reflexivity | assumption].
Qed.

Lemma trailing_tokens_ignored_witness :
  compile (list_ascii_of_string "1+2)") 18 =
  Exits ([IntelSyntax; GlobalMain; LabelMain]
           ++ gen (BinNode ND_ADD (NumNode 1) (NumNode 2)) ++ [PopRax; Ret])
        None 0.
Proof.
  eapply (proj1 trailing_tokens_ignored (list_ascii_of_string "1+2)") 18%nat).
  - vm_compute. reflexivity.
  - vm_compute. reflexivity.
Defined.

(** C6 (amended). The lexer never rejects an integer literal: a maximal run
    of digits always becomes one [TK_NUM] token, whatever its magnitude, and
    lexing goes on after it; every [TK_NUM] token of the result points at a
    maximal run of digits and holds its [literal_value]. That value is the
    decimal integer the run denotes when it is at most [INT_MAX]; above, it
    is the low 32 bits, read as two's complement, of the result of
    [strtol], which is the decimal value up to [LONG_MAX] and [LONG_MAX]
    beyond. *)
Theorem literal_value_conversion :
  forall user_input : cstring,
    (forall (fuel : nat) (ts : list Token),
        tokenize user_input fuel = OK ts -> Forall literal_token ts) /\
    (forall (fuel : nat) (ds p : cstring),
        ds <> [] ->
        forallb isdigit ds = true ->
        isdigit (deref p) = false ->
        tokenize_loop user_input (S fuel) (ds ++ p) =
        match tokenize_loop user_input fuel p with
        | OK rest => OK (mkToken TK_NUM (literal_value ds) (ds ++ p) :: rest)
        | e => e
        end) /\
    (forall ds : cstring,
        forallb isdigit ds = true ->
        (decimal ds <= INT_MAX -> literal_value ds = decimal ds) /\
        (INT_MAX < decimal ds <= LONG_MAX ->
           literal_value ds = int_of_long (decimal ds)) /\
        (LONG_MAX < decimal ds -> literal_value ds = -1)).
Proof.
  intros user_input. split; [|split].
  - intros fuel ts E. eapply tokenize_loop_literals, E.
  - intros fuel ds p Hne Hds Hp. now apply tokenize_number.
  - intros ds Hds. pose proof (decimal_nonneg ds Hds) as H0.
    unfold literal_value, INT_MAX, LONG_MAX. split; [|split]; intros H.
    + destruct (decimal ds >? 2 ^ 63 - 1) eqn:E; [lia|].
      apply int_of_long_fits. unfold INT_MIN, INT_MAX. lia.
    + destruct (decimal ds >? 2 ^ 63 - 1) eqn:E; [lia | reflexivity].
    + destruct (decimal ds >? 2 ^ 63 - 1) eqn:E; [reflexivity | lia].
Qed.

Lemma literal_value_conversion_witness :
  Forall literal_token
    [mkToken TK_NUM 12 (list_ascii_of_string "12+3");
     mkToken TK_RESERVED 0 (list_ascii_of_string "+3");
     mkToken TK_NUM 3 (list_ascii_of_string "3");
     mkToken TK_EOF 0 []] /\
  literal_value (list_ascii_of_string "12") = 12.
Proof.
  split.
  - apply (proj1 (literal_value_conversion (list_ascii_of_string "12+3")) 5%nat).
    reflexivity.
  - apply (proj1 (proj2 (proj2 (literal_value_conversion []))
                    (list_ascii_of_string "12") eq_refl)).
    vm_compute. discriminate.
Defined.

(** C6 as stated fails: the literal 2147483648 is above [INT_MAX], and the
    lexer never reports an error on it; with fuel to finish it returns a
    [TK_NUM] token of value -2147483648. *)
Lemma literal_overflow_not_rejected :
  decimal (list_ascii_of_string "2147483648") = 2147483648 /\
  INT_MAX < 2147483648 /\
  (forall fuel pos msg,
      tokenize (list_ascii_of_string "2147483648") fuel <> Exit1 pos msg) /\
  (forall fuel,
      (11 <= fuel)%nat ->
      tokenize (list_ascii_of_string "2147483648") fuel =
      OK [mkToken TK_NUM (-2147483648) (list_ascii_of_string "2147483648");
          mkToken TK_EOF 0 []]).
Proof.
  assert (H11 : forall fuel, (11 <= fuel)%nat ->
            tokenize (list_ascii_of_string "2147483648") fuel =
            OK [mkToken TK_NUM (-2147483648) (list_ascii_of_string "2147483648");
                mkToken TK_EOF 0 []]).
  { intros fuel Hfuel. unfold tokenize.
    rewrite (tokenize_loop_mono _ 11 fuel) by (assumption || (vm_compute; discriminate)).
    vm_compute. reflexivity. }
  split; [reflexivity|]. split; [reflexivity|]. split; [|exact H11].
  intros fuel pos msg E.
  pose proof (H11 (Nat.max fuel 11) ltac:(lia)) as H. unfold tokenize in *.
  rewrite (tokenize_loop_mono _ fuel (Nat.max fuel 11)), E in H
    by (lia || (rewrite E; discriminate)).
  discriminate.
Qed.

(** C7. The input "1+" is rejected: the run ends with the "not a number"
    error at offset 2, one past the ["+"], with exit status 1 and nothing
    on standard output. *)
Theorem missing_operand_rejected :
  forall fuel : nat,
    (12 <= fuel)%nat ->
    main fuel (cmdline "1+") = Exits [] (Some (At 2 NotNumber)) 1.
Proof.
  intros fuel Hfuel.
  apply main_exits with (fuel0 := 12%nat); [vm_compute; reflexivity | assumption].
Qed.

Lemma missing_operand_rejected_witness :
  main 12 (cmdline "1+") = Exits [] (Some (At 2 NotNumber)) 1.
Proof.
  apply (missing_operand_rejected 12). lia.
Defined.

(** C8. The input "(1+2" is rejected with the "not ')'" error at offset 4,
    the end of the input: [primary] consumes the ["("], [expr] parses
    [1+2] and leaves the cursor on the [TK_EOF] token, where [expect]
    fails. *)
Theorem unbalanced_paren_rejected :
  forall fuel : nat,
    (18 <= fuel)%nat ->
    main fuel (cmdline "(1+2") = Exits [] (Some (At 4 (NotChar ")"))) 1 /\
    exists lp inner eof,
      tokenize (list_ascii_of_string "(1+2") fuel = OK (lp :: inner) /\
      consume "(" (lp :: inner) = OK (true, inner) /\
      expr (list_ascii_of_string "(1+2") fuel fuel inner =
        OK (BinNode ND_ADD (NumNode 1) (NumNode 2), [eof]) /\
      kind eof = TK_EOF /\
      expect (list_ascii_of_string "(1+2") ")" [eof] = Exit1 4 (NotChar ")").
Proof.
  intros fuel Hfuel. split.
  - apply main_exits with (fuel0 := 18%nat); [vm_compute; reflexivity | assumption].
  - unfold tokenize.
    rewrite (tokenize_loop_mono _ 18 fuel) by (assumption || (vm_compute; discriminate)).
    eexists. eexists. eexists. split; [vm_compute; reflexivity|].
    split; [reflexivity|].
    rewrite (expr_mono _ 18 fuel 18 fuel) by (assumption || (vm_compute; discriminate)).
    split; [vm_compute; reflexivity|]. split; reflexivity.
Qed.

Lemma unbalanced_paren_rejected_witness :
  main 18 (cmdline "(1+2") = Exits [] (Some (At 4 (NotChar ")"))) 1 /\
  exists lp inner eof,
    tokenize (list_ascii_of_string "(1+2") 18 = OK (lp :: inner) /\
    consume "(" (lp :: inner) = OK (true, inner) /\
    expr (list_ascii_of_string "(1+2") 18 18 inner =
      OK (BinNode ND_ADD (NumNode 1) (NumNode 2), [eof]) /\
    kind eof = TK_EOF /\
    expect (list_ascii_of_string "(1+2") ")" [eof] = Exit1 4 (NotChar ")").
Proof.
  apply (unbalanced_paren_rejected 18). lia.
Defined.

(** C9. Parsing the tokens of any input finishes, with a tree or with an
    error of [error_at], and never dereferences the [NULL] after the last
    token: a call stack of three frames for each ["("] token (and three
    more) and as many iterations of a loop as there are tokens are enough,
    and more fuel gives the same result. [consume] never matches the
    [TK_EOF] token and moves the cursor by exactly one [TK_RESERVED] token
    when it matches; every successful call of [expr], [mul] or [primary]
    leaves the cursor strictly further, so each iteration of the loops of
    [expr] and [mul] goes over at least one token. *)
Theorem parse_terminates :
  forall (user_input : cstring) (fuel : nat) (ts : list Token),
    tokenize user_input fuel = OK ts ->
    (forall d k : nat,
        (3 * count_lparen ts + 3 <= d)%nat -> (length ts <= k)%nat ->
        ((exists node rest,
             expr user_input d k ts = OK (node, rest) /\
             advances ts rest /\ eof_terminated rest) \/
         (exists pos msg, expr user_input d k ts = Exit1 pos msg)) /\
        (forall d' k', (d <= d')%nat -> (k <= k')%nat ->
                       expr user_input d' k' ts = expr user_input d k ts)) /\
    (forall c t next,
        kind t = TK_EOF -> consume c (t :: next) = OK (false, t :: next)) /\
    (forall c cur b cur',
        consume c cur = OK (b, cur') ->
        if b then exists t, cur = t :: cur' /\ kind t = TK_RESERVED
        else cur' = cur) /\
    (forall d k cur node cur',
        (expr user_input d k cur = OK (node, cur') -> advances cur cur') /\
        (mul user_input d k cur = OK (node, cur') -> advances cur cur') /\
        (primary user_input d k cur = OK (node, cur') -> advances cur cur')).
Proof.
  intros user_input fuel ts Et.
  pose proof (lexes_eof_terminated _ _ (tokenize_loop_lexes _ _ _ _ Et)) as Heof.
  split; [|split; [|split]].
  - intros d k Hd Hk.
    assert (Hfin : finished (expr user_input d k ts)).
    { apply parser_halts; assumption. }
    split.
    + destruct (expr user_input d k ts) as [[node rest]| | |] eqn:E.
      * left. exists node, rest. split; [reflexivity|].
        pose proof (proj1 (parser_moves user_input d k) _ _ _ E) as Ha.
        split; [exact Ha|].
        eapply consumes_eof_terminated; [apply advances_consumes, Ha | exact Heof].
      * right. now exists pos, msg.
      * exfalso. now apply (proj1 (parser_safe user_input d k) ts Heof).
      * now elim Hfin.
    + intros d' k' Hd' Hk'. now apply expr_mono.
  - intros c t next Hk. apply consume_other. intros [H _]. congruence.
  - intros c cur b cur' H.
    apply consume_OK_inv in H as [(-> & t & -> & Hs) | (-> & -> & _)];
      [|reflexivity].
    exists t. split; [reflexivity | apply Hs].
  - intros d k cur node cur'.
    destruct (parser_moves user_input d k) as (He & Hm & Hp).
    split; [apply He | split; [apply Hm | apply Hp]].
Qed.

Lemma parse_terminates_witness :
  exists node rest,
    expr (list_ascii_of_string "(1+2)*3") 6 8
      [mkToken TK_RESERVED 0 (list_ascii_of_string "(1+2)*3");
       mkToken TK_NUM 1 (list_ascii_of_string "1+2)*3");
       mkToken TK_RESERVED 0 (list_ascii_of_string "+2)*3");
       mkToken TK_NUM 2 (list_ascii_of_string "2)*3");
       mkToken TK_RESERVED 0 (list_ascii_of_string ")*3");
       mkToken TK_RESERVED 0 (list_ascii_of_string "*3");
       mkToken TK_NUM 3 (list_ascii_of_string "3");
       mkToken TK_EOF 0 []] = OK (node, rest).
Proof.
  destruct (proj1 (parse_terminates (list_ascii_of_string "(1+2)*3") 8 _ eq_refl)
              6%nat 8%nat ltac:(vm_compute; lia) ltac:(vm_compute; lia))
    as [[(node & rest & E & _) | (pos & msg & E)] _].
  - exists node, rest. exact E.
  - vm_compute in E. discriminate.
Defined.

(** C10. The empty input, and any input of white space only, is lexed into
    the [TK_EOF] token alone and then rejected: the run ends with the "not a
    number" error at the offset that is the length of the input, with exit
    status 1 and nothing on standard output. *)
Theorem blank_input_rejected :
  forall (prog s : cstring) (fuel : nat),
    forallb isspace s = true ->
    (length s + 3 <= fuel)%nat ->
    tokenize s fuel = OK [mkToken TK_EOF 0 []] /\
    main fuel [prog; s] =
    Exits [] (Some (At (Z.of_nat (length s)) NotNumber)) 1.
Proof.
  intros prog s fuel Hs Hfuel.
  assert (Et : forall p f, forallb isspace p = true -> (length p < f)%nat ->
                 tokenize_loop s f p = OK [mkToken TK_EOF 0 []]).
  { induction p as [|c p IH]; intros f Hp Hf; (destruct f as [|f]; [lia|]).
    - now apply tokenize_eof.
    - cbn [forallb] in Hp. apply andb_prop in Hp as [Hc Hp].
      cbn [length] in Hf. rewrite tokenize_space by assumption.
      apply IH; [assumption | lia]. }
  assert (E : tokenize s fuel = OK [mkToken TK_EOF 0 []])
    by (apply Et; [assumption | lia]).
  split; [exact E|].
  unfold main. cbn [length Nat.eqb negb nth]. unfold compile. rewrite E.
  destruct fuel as [|[|[|fuel]]]; try lia.
  cbn. unfold error_at. cbn [length]. f_equal. f_equal. f_equal. lia.
Qed.

Lemma blank_input_rejected_witness :
  tokenize (list_ascii_of_string "  ") 5 = OK [mkToken TK_EOF 0 []] /\
  main 5 (cmdline "  ") = Exits [] (Some (At 2 NotNumber)) 1.
Proof.
  apply (blank_input_rejected (list_ascii_of_string "9cc")
           (list_ascii_of_string "  ") 5).
  - reflexivity.
  - cbn. lia.
Defined.

(** * Further properties of the program *)

(** ** The outcome of a run *)



(** ** The tokens point into the input *)

Lemma position_of_refl s : position_of s s.
Proof. now exists []. Qed.

Lemma position_of_cons c s p : position_of s p -> position_of (c :: s) p.
Proof. intros (pre & ->). now exists (c :: pre). Qed.

Lemma position_of_app ds s p : position_of s p -> position_of (ds ++ s) p.
Proof. intros (pre & ->). exists (ds ++ pre). now rewrite app_assoc. Qed.

Lemma position_of_length s p : position_of s p -> (length p <= length s)%nat.
Proof. intros (pre & ->). rewrite length_app. lia. Qed.

Lemma token_at_app ds s t : token_at s t -> token_at (ds ++ s) t.
Proof. intros [H K]. split; [now apply position_of_app | exact K]. Qed.

Lemma starts_before_all (t : Token) s ts :
  (length s < length (str t))%nat ->
  Forall (token_at s) ts ->
  Forall (starts_before t) ts.
Proof.
  intros Hlt H. apply Forall_forall. intros x Hx.
  rewrite Forall_forall in H. destruct (H x Hx) as [Hp _].
  apply position_of_length in Hp. unfold starts_before. lia.
Qed.

Section Tokens.

Variable user_input : cstring.

Lemma tokenize_loop_tokens fuel : forall p ts,
  tokenize_loop user_input fuel p = OK ts ->
  Forall (token_at p) ts /\ StronglySorted starts_before ts.
Proof.
  induction fuel as [|fuel IH]; intros p ts E; [discriminate|].
  cbn [tokenize_loop] in E.
  destruct (Ascii.eqb (deref p) NUL) eqn:Hnul.
  { injection E as <-. apply Ascii.eqb_eq in Hnul. split.
    - constructor; [|constructor]. split; [apply position_of_refl|].
      cbn. now split.
    - constructor; constructor. }
  destruct p as [|c p]; [discriminate|]. cbn [deref hd tl] in *.
  destruct (isspace c).
  { apply IH in E as [F S]. split; [|exact S].
    eapply Forall_impl; [|exact F]. intros t. apply (token_at_app [c]). }
  destruct (strchr _ c) eqn:Ho.
  { destruct (tokenize_loop user_input fuel p) as [rest| | |] eqn:Er;
      try discriminate.
    injection E as <-. apply IH in Er as [F S].
    fold operators in Ho. rewrite strchr_operators, Hnul, orb_false_r in Ho.
    split.
    - constructor.
      + split; [apply position_of_refl|]. cbn. now split.
      + eapply Forall_impl; [|exact F]. intros t. apply (token_at_app [c]).
    - constructor; [exact S|].
      eapply starts_before_all; [|exact F]. cbn. lia. }
  destruct (isdigit c) eqn:Hd; [|discriminate].
  destruct (digit_run (c :: p)) as (ds & q & Hsplit & Hds & Hq).
  assert (Hne : ds <> []).
  { intros ->. cbn [app] in Hsplit. subst q. cbn in Hq. congruence. }
  rewrite Hsplit in E |- *. rewrite (strtol_run ds q Hds Hq) in E.
  destruct (tokenize_loop user_input fuel q) as [rest| | |] eqn:Er;
    try discriminate.
  injection E as <-. apply IH in Er as [F S].
  assert (Hc : deref (ds ++ q) = c) by (rewrite <- Hsplit; reflexivity).
  split.
  - constructor.
    + split; [apply position_of_refl|]. cbn [kind str val].
      rewrite Hc. split; [exact Hd | apply int_of_long_range].
    + eapply Forall_impl; [|exact F]. intros t. apply token_at_app.
  - constructor; [exact S|].
    eapply starts_before_all; [|exact F]. cbn [str]. rewrite length_app.
    destruct ds; [congruence | cbn [length]; lia].
Qed.

End Tokens.

(** X2. The tokens [tokenize] returns point into the input, at strictly
    increasing offsets: a [TK_RESERVED] token at one of the six operator
    characters, with [val] 0; a [TK_NUM] token at a digit, with a [val]
    within the range of [int]; the [TK_EOF] token at the terminating NUL,
    with [val] 0. *)
Theorem tokens_point_into_input :
  forall (user_input : cstring) (fuel : nat) (ts : list Token),
    tokenize user_input fuel = OK ts ->
    Forall (token_at user_input) ts /\ StronglySorted starts_before ts.
Proof.
  intros user_input fuel ts E. eapply tokenize_loop_tokens, E.
Qed.

Lemma tokens_point_into_input_witness :
  Forall (token_at (list_ascii_of_string "12 +3"))
    [mkToken TK_NUM 12 (list_ascii_of_string "12 +3");
     mkToken TK_RESERVED 0 (list_ascii_of_string "+3");
     mkToken TK_NUM 3 (list_ascii_of_string "3");
     mkToken TK_EOF 0 []] /\
  StronglySorted starts_before
    [mkToken TK_NUM 12 (list_ascii_of_string "12 +3");
     mkToken TK_RESERVED 0 (list_ascii_of_string "+3");
     mkToken TK_NUM 3 (list_ascii_of_string "3");
     mkToken TK_EOF 0 []].
Proof.
  apply (tokens_point_into_input (list_ascii_of_string "12 +3") 6).
  reflexivity.
Defined.

(** ** Diagnostics *)

Lemma bind_Exit1_inv {A B} (m : M A) (f : A -> M B) ts pos msg :
  bind m f ts = Exit1 pos msg ->
  m ts = Exit1 pos msg \/
  exists a ts1, m ts = OK (a, ts1) /\ f a ts1 = Exit1 pos msg.
Proof.
  unfold bind. destruct (m ts) as [[a ts1]| | |]; try discriminate.
  - intros H. right. now exists a, ts1.
  - intros H. left. inversion H; subst. reflexivity.
Qed.

Lemma consume_no_exit c ts pos msg : consume c ts <> Exit1 pos msg.
Proof.
  destruct (consume_cases c ts)
    as [[_ E] | [(t & next & _ & _ & E) | (t & next & _ & _ & E)]];
    rewrite E; discriminate.
Qed.

Lemma consumes_In ts ts' (t : Token) : consumes ts ts' -> In t ts' -> In t ts.
Proof. intros (pre & -> & _) H. apply in_or_app. now right. Qed.

Section Diagnostics.

Variable user_input : cstring.

Local Abbreviation reports := (reports user_input).

Lemma expect_rparen_reports : reports (expect user_input ")").
Proof.
  intros ts pos msg. unfold expect, error_at.
  destruct ts as [|t next]; [discriminate|].
  destruct (TokenKind_eqb (kind t) TK_RESERVED) eqn:Hk;
    [destruct (Ascii.eqb (deref (str t)) ")") eqn:Hc; [discriminate|]|];
    cbn; intros H; inversion H; subst; exists t;
    (split; [now left|]); (split; [reflexivity|]); right;
    (split; [reflexivity|]); intros [K C].
  - apply Ascii.eqb_neq in Hc. contradiction.
  - apply TokenKind_eqb_eq in K. congruence.
Qed.

Lemma expect_number_reports : reports (expect_number user_input).
Proof.
  intros ts pos msg. unfold expect_number, error_at.
  destruct ts as [|t next]; [discriminate|].
  destruct (TokenKind_eqb (kind t) TK_NUM) eqn:Hk; [discriminate|].
  cbn. intros H; inversion H; subst. exists t. split; [now left|].
  split; [reflexivity|]. left. split; [reflexivity|].
  intros K. apply TokenKind_eqb_eq in K. congruence.
Qed.

Lemma expr_loop_reports P :
  reports P -> moves P -> forall k node, reports (expr_loop P k node).
Proof.
  intros HP HM. induction k as [|k IH]; intros node ts pos msg H; [discriminate|].
  rewrite expr_loop_S in H.
  apply bind_Exit1_inv in H as [H | (plus & ts1 & Hc & H)];
    [now apply consume_no_exit in H|].
  apply consume_OK_inv in Hc as [(-> & t & -> & Hs) | (-> & -> & _)].
  - apply bind_Exit1_inv in H as [H | (rhs & ts2 & H1 & H)].
    + apply HP in H as (x & Hx & B). exists x. split; [now right | exact B].
    + apply IH in H as (x & Hx & B). exists x. split; [|exact B]. right.
      eapply consumes_In; [apply advances_consumes, (HM _ _ _ H1) | exact Hx].
  - apply bind_Exit1_inv in H as [H | (minus & ts1 & Hc & H)];
      [now apply consume_no_exit in H|].
    apply consume_OK_inv in Hc as [(-> & t & -> & Hs) | (-> & -> & _)];
      [|discriminate].
    apply bind_Exit1_inv in H as [H | (rhs & ts2 & H1 & H)].
    + apply HP in H as (x & Hx & B). exists x. split; [now right | exact B].
    + apply IH in H as (x & Hx & B). exists x. split; [|exact B]. right.
      eapply consumes_In; [apply advances_consumes, (HM _ _ _ H1) | exact Hx].
Qed.

Lemma mul_loop_reports P :
  reports P -> moves P -> forall k node, reports (mul_loop P k node).
Proof.
  intros HP HM. induction k as [|k IH]; intros node ts pos msg H; [discriminate|].
  rewrite mul_loop_S in H.
  apply bind_Exit1_inv in H as [H | (star & ts1 & Hc & H)];
    [now apply consume_no_exit in H|].
  apply consume_OK_inv in Hc as [(-> & t & -> & Hs) | (-> & -> & _)].
  - apply bind_Exit1_inv in H as [H | (rhs & ts2 & H1 & H)].
    + apply HP in H as (x & Hx & B). exists x. split; [now right | exact B].
    + apply IH in H as (x & Hx & B). exists x. split; [|exact B]. right.
      eapply consumes_In; [apply advances_consumes, (HM _ _ _ H1) | exact Hx].
  - apply bind_Exit1_inv in H as [H | (slash & ts1 & Hc & H)];
      [now apply consume_no_exit in H|].
    apply consume_OK_inv in Hc as [(-> & t & -> & Hs) | (-> & -> & _)];
      [|discriminate].
    apply bind_Exit1_inv in H as [H | (rhs & ts2 & H1 & H)].
    + apply HP in H as (x & Hx & B). exists x. split; [now right | exact B].
    + apply IH in H as (x & Hx & B). exists x. split; [|exact B]. right.
      eapply consumes_In; [apply advances_consumes, (HM _ _ _ H1) | exact Hx].
Qed.

Lemma parser_reports d : forall k,
  reports (expr user_input d k) /\
  reports (mul user_input d k) /\
  reports (primary user_input d k).
Proof.
  induction d as [|d IH]; intros k;
    [repeat split; intros ts pos msg H; discriminate|].
  destruct (IH k) as (Re & Rm & Rp).
  destruct (parser_moves user_input d k) as (Me & Mm & Mp).
  repeat split; intros ts pos msg H.
  - rewrite expr_S in H.
    apply bind_Exit1_inv in H as [H | (node & ts1 & H1 & H)]; [now apply Rm|].
    apply expr_loop_reports in H as (x & Hx & B); try assumption.
    exists x. split; [|exact B].
    eapply consumes_In; [apply advances_consumes, (Mm _ _ _ H1) | exact Hx].
  - rewrite mul_S in H.
    apply bind_Exit1_inv in H as [H | (node & ts1 & H1 & H)]; [now apply Rp|].
    apply mul_loop_reports in H as (x & Hx & B); try assumption.
    exists x. split; [|exact B].
    eapply consumes_In; [apply advances_consumes, (Mp _ _ _ H1) | exact Hx].
  - rewrite primary_S in H.
    apply bind_Exit1_inv in H as [H | (paren & ts1 & Hc & H)];
      [now apply consume_no_exit in H|].
    apply consume_OK_inv in Hc as [(-> & t & -> & Hs) | (-> & -> & _)].
    + apply bind_Exit1_inv in H as [H | (node & ts2 & H1 & H)].
      * apply Re in H as (x & Hx & B). exists x. split; [now right | exact B].
      * apply bind_Exit1_inv in H as [H | (u & ts3 & _ & H)]; [|discriminate].
        apply expect_rparen_reports in H as (x & Hx & B).
        exists x. split; [|exact B]. right.
        eapply consumes_In; [apply advances_consumes, (Me _ _ _ H1) | exact Hx].
    + apply bind_Exit1_inv in H as [H | (v & ts2 & _ & H)]; [|discriminate].
      now apply expect_number_reports.
Qed.

End Diagnostics.

(** X3. Every diagnostic of [error_at] points inside the input line, between
    offset 0 and its length: the lexer's error at the first character that
    is no white space, operator or digit; a parser's error at a token of
    the input, and it is either "not a number" at a token that is not a
    number or "not ')'" at a token that is not [")"]. *)
Theorem diagnostic_in_input :
  forall (prog user_input : cstring) (fuel : nat) out pos msg status,
    main fuel [prog; user_input] = Exits out (Some (At pos msg)) status ->
    0 <= pos <= Z.of_nat (length user_input) /\
    ((msg = CannotTokenize /\
      exists pre c rest,
        user_input = pre ++ c :: rest /\ pos = Z.of_nat (length pre) /\
        forallb scannable pre = true /\ scannable c = false) \/
     (exists ts t,
        tokenize user_input fuel = OK ts /\ In t ts /\
        blames user_input t pos msg)).
Proof.
  intros prog user_input fuel out pos msg status.
  unfold main. cbn [length Nat.eqb negb nth]. unfold compile, tokenize.
  destruct (tokenize_loop user_input fuel user_input) as [ts|p m| |] eqn:Et;
    try discriminate.
  - destruct (expr user_input fuel fuel ts) as [[node rest]|p m| |] eqn:Ee;
      try discriminate.
    intros H; inversion H; subst.
    apply (proj1 (parser_reports user_input fuel fuel)) in Ee as (t & Ht & B).
    pose proof (proj1 (tokenize_loop_tokens _ _ _ _ Et)) as F.
    rewrite Forall_forall in F. destruct (F t Ht) as [Hp _].
    apply position_of_length in Hp. split.
    + destruct B as [-> _]. lia.
    + right. now exists ts, t.
  - intros H; inversion H; subst out pos msg status.
    assert (Hfin : finished (tokenize_loop user_input fuel user_input))
      by (rewrite Et; discriminate).
    pose proof (tokenize_loop_mono user_input fuel
                  (Nat.max fuel (S (length user_input))) user_input
                  ltac:(lia) Hfin) as Hm.
    destruct (tokenize_loop_spec user_input
                (Nat.max fuel (S (length user_input))) user_input ltac:(lia))
      as [(ts' & E' & _) | (pre & c & rest & Hu & Hpre & Hc & _ & E')].
    + rewrite Hm, Et in E'. discriminate.
    + rewrite Hm, Et in E'. unfold error_at in E'.
      assert (Hpos : Z.of_nat (length user_input) - Z.of_nat (length (c :: rest))
                     = Z.of_nat (length pre)).
      { rewrite Hu at 1. rewrite length_app. lia. }
      rewrite Hpos in E'. injection E' as -> ->. split.
      * rewrite Hu. rewrite length_app. lia.
      * left. split; [reflexivity|]. now exists pre, c, rest.
Qed.

Lemma diagnostic_in_input_witness :
  0 <= 4 <= Z.of_nat (length (list_ascii_of_string "(1+2")) /\
  ((NotChar ")" = CannotTokenize /\
    exists pre c rest,
      list_ascii_of_string "(1+2" = pre ++ c :: rest /\ 4 = Z.of_nat (length pre) /\
      forallb scannable pre = true /\ scannable c = false) \/
   (exists ts t,
      tokenize (list_ascii_of_string "(1+2") 18 = OK ts /\ In t ts /\
      blames (list_ascii_of_string "(1+2") t 4 (NotChar ")"))).
Proof.
  apply (diagnostic_in_input (list_ascii_of_string "9cc")
           (list_ascii_of_string "(1+2") 18 [] 4 (NotChar ")") 1).
  vm_compute. reflexivity.
Defined.

(** ** The parser accepts derivations of the grammar only *)

Lemma tok_lex_sym c t l : is_sym c t -> tok_lex t l -> l = LSym c.
Proof.
  intros Hs. destruct l as [n|c']; cbn [tok_lex].
  - intros [K _]. destruct Hs as [K' _]. congruence.
  - intros Hs'. f_equal. eapply is_sym_inj; eassumption.
Qed.

Lemma tok_lex_num t l :
  kind t = TK_NUM -> tok_lex t l ->
  exists n, l = LNum n /\ NumNode (val t) = node_of (ELit n).
Proof.
  intros Hk. destruct l as [n|c]; cbn [tok_lex].
  - intros [_ Hv]. exists n. split; [reflexivity|]. cbn [node_of]. now rewrite Hv.
  - intros [K _]. congruence.
Qed.

Lemma ret_OK_inv {A} (a b : A) (ts ts' : list Token) :
  ret a ts = OK (b, ts') -> a = b /\ ts = ts'.
Proof. unfold ret. intros H. now inversion H. Qed.

Section Soundness.

Variable user_input : cstring.

Lemma mul_loop_sound P :
  sound_for g_primary P ->
  forall k node ts n rest,
    mul_loop P k node ts = OK (n, rest) ->
    exists pre,
      ts = pre ++ rest /\
      forall ls0 e0 ls,
        g_mul ls0 e0 -> node = node_of e0 -> Forall2 tok_lex pre ls ->
        exists e, g_mul (ls0 ++ ls) e /\ n = node_of e.
Proof.
  intros HP. induction k as [|k IH]; intros node ts n rest H; [discriminate|].
  rewrite mul_loop_S in H.
  apply bind_OK_inv in H as (star & ts1 & Hc & H).
  apply consume_OK_inv in Hc as [(-> & t & -> & Hs) | (-> & -> & _)].
  - apply bind_OK_inv in H as (rhs & ts2 & H1 & H).
    apply HP in H1 as (pre1 & -> & S1).
    apply IH in H as (pre2 & -> & S2).
    exists (t :: pre1 ++ pre2). split; [rewrite app_assoc; reflexivity|].
    intros ls0 e0 ls G0 E0 F.
    inversion F as [|t' l pre' ls' Hl F']; subst.
    apply Forall2_app_inv_l in F' as (ls1 & ls2 & F1 & F2 & ->).
    apply (tok_lex_sym _ _ _ Hs) in Hl as ->.
    destruct (S1 ls1 F1) as (e1 & G1 & ->).
    destruct (S2 (ls0 ++ LSym "*" :: ls1) (EMul e0 e1) ls2) as (e & G & ->);
      [now apply g_mul_mul | reflexivity | assumption |].
    exists e. split; [|reflexivity]. now rewrite <- app_assoc in G.
  - apply bind_OK_inv in H as (slash & ts1 & Hc & H).
    apply consume_OK_inv in Hc as [(-> & t & -> & Hs) | (-> & -> & _)].
    + apply bind_OK_inv in H as (rhs & ts2 & H1 & H).
      apply HP in H1 as (pre1 & -> & S1).
      apply IH in H as (pre2 & -> & S2).
      exists (t :: pre1 ++ pre2). split; [rewrite app_assoc; reflexivity|].
      intros ls0 e0 ls G0 E0 F.
      inversion F as [|t' l pre' ls' Hl F']; subst.
      apply Forall2_app_inv_l in F' as (ls1 & ls2 & F1 & F2 & ->).
      apply (tok_lex_sym _ _ _ Hs) in Hl as ->.
      destruct (S1 ls1 F1) as (e1 & G1 & ->).
      destruct (S2 (ls0 ++ LSym "/" :: ls1) (EDiv e0 e1) ls2) as (e & G & ->);
        [now apply g_mul_div | reflexivity | assumption |].
      exists e. split; [|reflexivity]. now rewrite <- app_assoc in G.
    + apply ret_OK_inv in H as [<- <-]. exists []. split; [reflexivity|].
      intros ls0 e0 ls G0 E0 F. inversion F; subst.
      exists e0. now rewrite app_nil_r.
Qed.

Lemma expr_loop_sound P :
  sound_for g_mul P ->
  forall k node ts n rest,
    expr_loop P k node ts = OK (n, rest) ->
    exists pre,
      ts = pre ++ rest /\
      forall ls0 e0 ls,
        g_expr ls0 e0 -> node = node_of e0 -> Forall2 tok_lex pre ls ->
        exists e, g_expr (ls0 ++ ls) e /\ n = node_of e.
Proof.
  intros HP. induction k as [|k IH]; intros node ts n rest H; [discriminate|].
  rewrite expr_loop_S in H.
  apply bind_OK_inv in H as (plus & ts1 & Hc & H).
  apply consume_OK_inv in Hc as [(-> & t & -> & Hs) | (-> & -> & _)].
  - apply bind_OK_inv in H as (rhs & ts2 & H1 & H).
    apply HP in H1 as (pre1 & -> & S1).
    apply IH in H as (pre2 & -> & S2).
    exists (t :: pre1 ++ pre2). split; [rewrite app_assoc; reflexivity|].
    intros ls0 e0 ls G0 E0 F.
    inversion F as [|t' l pre' ls' Hl F']; subst.
    apply Forall2_app_inv_l in F' as (ls1 & ls2 & F1 & F2 & ->).
    apply (tok_lex_sym _ _ _ Hs) in Hl as ->.
    destruct (S1 ls1 F1) as (e1 & G1 & ->).
    destruct (S2 (ls0 ++ LSym "+" :: ls1) (EAdd e0 e1) ls2) as (e & G & ->);
      [now apply g_expr_add | reflexivity | assumption |].
    exists e. split; [|reflexivity]. now rewrite <- app_assoc in G.
  - apply bind_OK_inv in H as (minus & ts1 & Hc & H).
    apply consume_OK_inv in Hc as [(-> & t & -> & Hs) | (-> & -> & _)].
    + apply bind_OK_inv in H as (rhs & ts2 & H1 & H).
      apply HP in H1 as (pre1 & -> & S1).
      apply IH in H as (pre2 & -> & S2).
      exists (t :: pre1 ++ pre2). split; [rewrite app_assoc; reflexivity|].
      intros ls0 e0 ls G0 E0 F.
      inversion F as [|t' l pre' ls' Hl F']; subst.
      apply Forall2_app_inv_l in F' as (ls1 & ls2 & F1 & F2 & ->).
      apply (tok_lex_sym _ _ _ Hs) in Hl as ->.
      destruct (S1 ls1 F1) as (e1 & G1 & ->).
      destruct (S2 (ls0 ++ LSym "-" :: ls1) (ESub e0 e1) ls2) as (e & G & ->);
        [now apply g_expr_sub | reflexivity | assumption |].
      exists e. split; [|reflexivity]. now rewrite <- app_assoc in G.
    + apply ret_OK_inv in H as [<- <-]. exists []. split; [reflexivity|].
      intros ls0 e0 ls G0 E0 F. inversion F; subst.
      exists e0. now rewrite app_nil_r.
Qed.

Lemma parser_sound d : forall k,
  sound_for g_expr (expr user_input d k) /\
  sound_for g_mul (mul user_input d k) /\
  sound_for g_primary (primary user_input d k).
Proof.
  induction d as [|d IH]; intros k;
    [repeat split; intros ts node rest H; discriminate|].
  destruct (IH k) as (Se & Sm & Sp).
  repeat split; intros ts node rest H.
  - rewrite expr_S in H. apply bind_OK_inv in H as (n1 & ts1 & H1 & H).
    apply Sm in H1 as (pre1 & -> & S1).
    apply (expr_loop_sound _ Sm) in H as (pre2 & -> & S2).
    exists (pre1 ++ pre2). split; [rewrite app_assoc; reflexivity|].
    intros ls F. apply Forall2_app_inv_l in F as (ls1 & ls2 & F1 & F2 & ->).
    destruct (S1 ls1 F1) as (e1 & G1 & ->).
    apply (S2 ls1 e1 ls2); [now apply g_expr_mul | reflexivity | assumption].
  - rewrite mul_S in H. apply bind_OK_inv in H as (n1 & ts1 & H1 & H).
    apply Sp in H1 as (pre1 & -> & S1).
    apply (mul_loop_sound _ Sp) in H as (pre2 & -> & S2).
    exists (pre1 ++ pre2). split; [rewrite app_assoc; reflexivity|].
    intros ls F. apply Forall2_app_inv_l in F as (ls1 & ls2 & F1 & F2 & ->).
    destruct (S1 ls1 F1) as (e1 & G1 & ->).
    apply (S2 ls1 e1 ls2); [now apply g_mul_primary | reflexivity | assumption].
  - rewrite primary_S in H. apply bind_OK_inv in H as (paren & ts1 & Hc & H).
    apply consume_OK_inv in Hc as [(-> & t & -> & Hs) | (-> & -> & _)].
    + apply bind_OK_inv in H as (n1 & ts2 & H1 & H).
      apply bind_OK_inv in H as (u & ts3 & H2 & H).
      apply ret_OK_inv in H as [<- <-].
      apply expect_OK_inv in H2 as (t' & -> & Hs').
      apply Se in H1 as (pre1 & -> & S1).
      exists (t :: pre1 ++ [t']). split.
      { cbn [app]. rewrite <- app_assoc. reflexivity. }
      intros ls F. inversion F as [|x l pre' ls' Hl F']; subst.
      apply Forall2_app_inv_l in F' as (ls1 & ls2 & F1 & F2 & ->).
      inversion F2 as [|x' l' nil1 ls2' Hl' Fnil]; subst. inversion Fnil; subst.
      apply (tok_lex_sym _ _ _ Hs) in Hl as ->.
      apply (tok_lex_sym _ _ _ Hs') in Hl' as ->.
      destruct (S1 ls1 F1) as (e1 & G1 & ->).
      exists e1. split; [now apply g_primary_paren | reflexivity].
    + apply bind_OK_inv in H as (v & ts2 & H1 & H).
      apply ret_OK_inv in H as [<- <-].
      apply expect_number_OK_inv in H1 as (t & -> & Hk & ->).
      exists [t]. split; [reflexivity|].
      intros ls F. inversion F as [|x l pre' ls' Hl Fnil]; subst.
      inversion Fnil; subst.
      destruct (tok_lex_num _ _ Hk Hl) as (n & -> & E).
      exists (ELit n). split; [apply g_primary_num | exact E].
Qed.

(** The loops stop on a token that is none of their operators. *)
Lemma mul_loop_stops P k : forall node ts n rest,
  mul_loop P k node ts = OK (n, rest) -> stops_mul rest.
Proof.
  induction k as [|k IH]; intros node ts n rest H; [discriminate|].
  rewrite mul_loop_S in H.
  apply bind_OK_inv in H as (star & ts1 & Hc & H).
  apply consume_OK_inv in Hc as [(-> & t & -> & Hs) | (-> & -> & t & next & -> & N1)].
  - apply bind_OK_inv in H as (rhs & ts2 & _ & H). now apply IH in H.
  - apply bind_OK_inv in H as (slash & ts1 & Hc & H).
    apply consume_OK_inv in Hc
      as [(-> & t' & E & Hs) | (-> & -> & t' & next' & E & N2)].
    + apply bind_OK_inv in H as (rhs & ts2 & _ & H). now apply IH in H.
    + apply ret_OK_inv in H as [_ <-]. injection E as <- <-.
      now exists t, next.
Qed.

Lemma expr_loop_stops P k : forall node ts n rest,
  stops_mul ts ->
  (forall ts1 n1 ts2, P ts1 = OK (n1, ts2) -> stops_mul ts2) ->
  expr_loop P k node ts = OK (n, rest) -> stops_mul rest /\ stops_expr rest.
Proof.
  induction k as [|k IH]; intros node ts n rest Hm HP H; [discriminate|].
  rewrite expr_loop_S in H.
  apply bind_OK_inv in H as (plus & ts1 & Hc & H).
  apply consume_OK_inv in Hc as [(-> & t & -> & Hs) | (-> & -> & t & next & -> & N1)].
  - apply bind_OK_inv in H as (rhs & ts2 & H1 & H).
    eapply IH; [eapply HP, H1 | exact HP | exact H].
  - apply bind_OK_inv in H as (minus & ts1 & Hc & H).
    apply consume_OK_inv in Hc
      as [(-> & t' & E & Hs) | (-> & -> & t' & next' & E & N2)].
    + apply bind_OK_inv in H as (rhs & ts2 & H1 & H).
      eapply IH; [eapply HP, H1 | exact HP | exact H].
    + apply ret_OK_inv in H as [_ <-]. injection E as <- <-.
      split; [exact Hm | now exists t, next].
Qed.

Lemma expr_stops d k ts node rest :
  expr user_input d k ts = OK (node, rest) -> stops_mul rest /\ stops_expr rest.
Proof.
  destruct d as [|d]; [discriminate|]. rewrite expr_S. intros H.
  apply bind_OK_inv in H as (n1 & ts1 & H1 & H).
  assert (HP : forall ts1 n1 ts2,
             mul user_input d k ts1 = OK (n1, ts2) -> stops_mul ts2).
  { clear. intros ts1 n1 ts2 H. destruct d as [|d]; [discriminate|].
    rewrite mul_S in H. apply bind_OK_inv in H as (n0 & ts0 & _ & H).
    eapply mul_loop_stops, H. }
  eapply expr_loop_stops; [eapply HP, H1 | exact HP | exact H].
Qed.

End Soundness.

Lemma int_of_long_mod v :
  INT_MIN <= v <= INT_MAX ->
  int_of_long (if v mod 2 ^ 32 >? LONG_MAX then LONG_MAX else v mod 2 ^ 32) = v.
Proof.
  intros Hv. pose proof (Z.mod_pos_bound v (2 ^ 32) ltac:(lia)) as Hm.
  unfold LONG_MAX. destruct (v mod 2 ^ 32 >? 2 ^ 63 - 1) eqn:E; [lia|].
  unfold int_of_long. rewrite Zplus_mod_idemp_l.
  unfold INT_MIN, INT_MAX in Hv. rewrite Z.mod_small; lia.
Qed.

Lemma tok_lex_exists pre :
  Forall (fun t => kind t <> TK_EOF) pre -> int_tokens pre ->
  exists ls, Forall2 tok_lex pre ls.
Proof.
  induction pre as [|t pre IH]; intros F I; [exists []; constructor|].
  inversion F as [|? ? Ht F']; subst. inversion I as [|? ? Hv I']; subst.
  destruct (IH F' I') as (ls & Hls).
  destruct (kind t) eqn:Hk; [| |congruence].
  - exists (LSym (deref (str t)) :: ls). constructor; [|assumption]. now split.
  - exists (LNum (val t mod 2 ^ 32) :: ls). constructor; [|assumption].
    split; [assumption|]. symmetry. now apply int_of_long_mod.
Qed.

(** X4. Whatever [expr] accepts is a derivation of the grammar: the tokens
    it went over, which are at least one, read as lexemes that the grammar
    derives as an expression whose tree is the one returned; and it went as
    far as it could, the cursor being left on a token that is none of
    [+ - * /]. *)
Theorem expr_accepts_derivations :
  forall (user_input : cstring) (d k : nat) (ts : list Token) node rest,
    expr user_input d k ts = OK (node, rest) ->
    int_tokens ts ->
    exists pre ls e,
      ts = pre ++ rest /\ pre <> [] /\
      Forall2 tok_lex pre ls /\ g_expr ls e /\ node = node_of e /\
      stops_mul rest /\ stops_expr rest.
Proof.
  intros user_input d k ts node rest H I.
  destruct (proj1 (parser_sound user_input d k) _ _ _ H) as (pre & E & S).
  destruct (proj1 (parser_moves user_input d k) _ _ _ H) as (pre' & E' & N & F).
  assert (pre' = pre) as -> by (rewrite E in E'; now apply app_inv_tail in E').
  assert (Ip : int_tokens pre).
  { unfold int_tokens in *. rewrite E in I. now apply Forall_app in I. }
  destruct (tok_lex_exists pre F Ip) as (ls & Hls).
  destruct (S ls Hls) as (e & G & ->).
  destruct (expr_stops _ _ _ _ _ _ H) as [Sm Se].
  exists pre, ls, e. repeat split; assumption.
Qed.

Lemma expr_accepts_derivations_witness :
  exists pre ls e,
    [mkToken TK_NUM 1 (list_ascii_of_string "1+2)");
     mkToken TK_RESERVED 0 (list_ascii_of_string "+2)");
     mkToken TK_NUM 2 (list_ascii_of_string "2)");
     mkToken TK_RESERVED 0 (list_ascii_of_string ")");
     mkToken TK_EOF 0 []]
    = pre ++ [mkToken TK_RESERVED 0 (list_ascii_of_string ")");
              mkToken TK_EOF 0 []] /\
    pre <> [] /\
    Forall2 tok_lex pre ls /\ g_expr ls e /\
    BinNode ND_ADD (NumNode 1) (NumNode 2) = node_of e /\
    stops_mul [mkToken TK_RESERVED 0 (list_ascii_of_string ")");
               mkToken TK_EOF 0 []] /\
    stops_expr [mkToken TK_RESERVED 0 (list_ascii_of_string ")");
                mkToken TK_EOF 0 []].
Proof.
  apply (expr_accepts_derivations (list_ascii_of_string "1+2)") 6 6).
  - reflexivity.
  - repeat constructor; vm_compute; discriminate.
Defined.

(** ** The language the parser accepts up to the end of the input *)

Lemma first_eof_unique (l1 l2 r1 r2 : list Token) a b :
  l1 ++ a :: r1 = l2 ++ b :: r2 ->
  Forall (fun t => kind t <> TK_EOF) l1 -> kind a = TK_EOF ->
  Forall (fun t => kind t <> TK_EOF) l2 -> kind b = TK_EOF ->
  l1 = l2.
Proof.
  revert l2. induction l1 as [|x l1 IH]; intros [|y l2] E F1 Ha F2 Hb;
    cbn [app] in E.
  - reflexivity.
  - injection E as -> _. inversion F2; subst. contradiction.
  - injection E as -> _. inversion F1; subst. contradiction.
  - injection E as -> E. inversion F1; subst. inversion F2; subst.
    f_equal. eapply IH; eassumption.
Qed.

Lemma tok_lex_not_eof pre ls :
  Forall2 tok_lex pre ls -> Forall (fun t => kind t <> TK_EOF) pre.
Proof.
  induction 1 as [|t l pre ls Ht _ IH]; constructor; [|assumption].
  destruct l; cbn [tok_lex] in Ht; destruct Ht as [K _]; congruence.
Qed.

Section Language.

Variable user_input : cstring.

Lemma tokenize_loop_spells fuel : forall p ts,
  ~ In NUL p ->
  tokenize_loop user_input fuel p = OK ts ->
  exists body ls,
    ts = body ++ [mkToken TK_EOF 0 []] /\
    spells p ls /\ Forall2 tok_lex body ls.
Proof.
  induction fuel as [|fuel IH]; intros p ts Hnul E; [discriminate|].
  cbn [tokenize_loop] in E.
  destruct (Ascii.eqb (deref p) NUL) eqn:H0.
  { apply Ascii.eqb_eq in H0. destruct p as [|c p].
    - injection E as <-. exists [], []. repeat split; constructor.
    - cbn in H0. subst c. elim Hnul. now left. }
  destruct p as [|c p]; [discriminate|]. cbn [deref hd tl] in *.
  assert (Hp : ~ In NUL p) by (intros H; apply Hnul; now right).
  destruct (isspace c) eqn:Hs.
  { destruct (IH _ _ Hp E) as (body & ls & -> & S & F).
    exists body, ls. repeat split; [|assumption]. now apply spells_space. }
  destruct (strchr _ c) eqn:Ho.
  { destruct (tokenize_loop user_input fuel p) as [rest| | |] eqn:Er;
      try discriminate.
    injection E as <-. destruct (IH _ _ Hp Er) as (body & ls & -> & S & F).
    fold operators in Ho. rewrite strchr_operators, H0, orb_false_r in Ho.
    exists (mkToken TK_RESERVED 0 (c :: p) :: body), (LSym c :: ls).
    repeat split; [now apply spells_sym|].
    constructor; [now split | assumption]. }
  destruct (isdigit c) eqn:Hd; [|discriminate].
  destruct (digit_run (c :: p)) as (ds & q & Hsplit & Hds & Hq).
  assert (Hne : ds <> []).
  { intros ->. cbn [app] in Hsplit. subst q. cbn in Hq. congruence. }
  assert (Hq' : ~ In NUL q).
  { intros H. apply Hnul. rewrite Hsplit. apply in_or_app. now right. }
  rewrite Hsplit in E |- *. rewrite (strtol_run ds q Hds Hq) in E.
  destruct (tokenize_loop user_input fuel q) as [rest| | |] eqn:Er;
    try discriminate.
  injection E as <-. destruct (IH _ _ Hq' Er) as (body & ls & -> & S & F).
  exists (mkToken TK_NUM (literal_value ds) (ds ++ q) :: body),
         (LNum (decimal ds) :: ls).
  repeat split; [now apply spells_num|].
  constructor; [now split | assumption].
Qed.

End Language.

(** X5. With the cursor required on the end-of-input token after [expr]
    (what [at_eof] tests, and [main] does not), the lexer and the parser
    accept exactly the well-formed expressions: a well-formed input is
    parsed up to the [TK_EOF] token, and an input without NUL that is
    parsed up to the [TK_EOF] token is a well-formed expression whose tree
    is the one returned. *)
Theorem accepted_language :
  forall (user_input : cstring) (fuel : nat),
    ~ In NUL user_input ->
    (3 * length user_input + 6 <= fuel)%nat ->
    (forall e,
        well_formed user_input e ->
        exists ts rest,
          tokenize user_input fuel = OK ts /\
          expr user_input fuel fuel ts = OK (node_of e, rest) /\
          at_eof rest = OK (true, rest)) /\
    (forall ts node rest,
        tokenize user_input fuel = OK ts ->
        expr user_input fuel fuel ts = OK (node, rest) ->
        at_eof rest = OK (true, rest) ->
        exists e, well_formed user_input e /\ node = node_of e).
Proof.
  intros user_input fuel Hnul Hfuel. split.
  - intros e Hwf.
    destruct (parse_well_formed user_input e fuel Hwf Hfuel) as (ts & Et & Ee).
    exists ts, [mkToken TK_EOF 0 []]. now repeat split.
  - intros ts node rest Et Ee Heof.
    destruct (tokenize_loop_spells user_input fuel _ _ Hnul Et)
      as (body & ls & -> & S & F).
    destruct (proj1 (parser_sound user_input fuel fuel) _ _ _ Ee) as (pre & E & Snd).
    destruct (proj1 (parser_moves user_input fuel fuel) _ _ _ Ee) as (pre' & E' & _ & Fp).
    assert (pre' = pre) as -> by (rewrite E in E'; now apply app_inv_tail in E').
    destruct rest as [|t rest]; [discriminate|].
    cbn in Heof. injection Heof as Hk. apply TokenKind_eqb_eq in Hk.
    assert (body = pre) as <-.
    { eapply first_eof_unique; [exact E | | reflexivity | exact Fp | exact Hk].
      eapply tok_lex_not_eof, F. }
    destruct (Snd ls F) as (e & G & ->).
    exists e. split; [now exists ls | reflexivity].
Qed.

Lemma accepted_language_witness :
  exists ts rest,
    tokenize (list_ascii_of_string "7") 9 = OK ts /\
    expr (list_ascii_of_string "7") 9 9 ts = OK (node_of (ELit 7), rest) /\
    at_eof rest = OK (true, rest).
Proof.
  apply (proj1 (accepted_language (list_ascii_of_string "7") 9
                  ltac:(vm_compute; intuition discriminate)
                  ltac:(cbn; lia))).
  exists [LNum 7]. split.
  - apply (spells_num ["7"%char] []);
      [discriminate | reflexivity | reflexivity | apply spells_nil].
  - apply g_expr_mul, g_mul_primary, g_primary_num.
Defined.

(** X6. White space does not matter: two inputs that read as the same
    lexemes of a well-formed expression are compiled to the same output,
    the program of the tree of that expression, with exit status 0. *)
Theorem white_space_insensitive :
  forall (prog prog' s s' : cstring) (ls : list lexeme) (e : Expr)
         (fuel fuel' : nat),
    spells s ls -> spells s' ls -> g_expr ls e ->
    (3 * length s + 6 <= fuel)%nat -> (3 * length s' + 6 <= fuel')%nat ->
    main fuel [prog; s] = main fuel' [prog'; s'] /\
    main fuel [prog; s] =
    Exits ([IntelSyntax; GlobalMain; LabelMain] ++ gen (node_of e)
             ++ [PopRax; Ret]) None 0.
Proof.
  intros prog prog' s s' ls e fuel fuel' Hs Hs' G Hf Hf'.
  assert (H : forall p u f, spells u ls -> (3 * length u + 6 <= f)%nat ->
                main f [p; u] =
                Exits ([IntelSyntax; GlobalMain; LabelMain] ++ gen (node_of e)
                         ++ [PopRax; Ret]) None 0).
  { intros p u f Hu Hfu. unfold main. cbn [length Nat.eqb negb nth].
    destruct (parse_well_formed u e f) as (ts & Et & Ee);
      [now exists ls | assumption |].
    unfold compile. rewrite Et, Ee. reflexivity. }
  split; [|now apply H]. rewrite (H prog s fuel), (H prog' s' fuel'); auto.
Qed.

Lemma white_space_insensitive_witness :
  main 15 [list_ascii_of_string "9cc"; list_ascii_of_string "1+2"] =
  main 27 [list_ascii_of_string "9cc"; list_ascii_of_string " 1 +  2"] /\
  main 15 [list_ascii_of_string "9cc"; list_ascii_of_string "1+2"] =
  Exits ([IntelSyntax; GlobalMain; LabelMain]
           ++ gen (node_of (EAdd (ELit 1) (ELit 2))) ++ [PopRax; Ret]) None 0.
Proof.
  apply (white_space_insensitive _ _ _ _ [LNum 1; LSym "+"; LNum 2]).
  - apply (spells_num ["1"%char]); [discriminate | reflexivity | reflexivity |].
    apply spells_sym; [reflexivity|].
    apply (spells_num ["2"%char] []); [discriminate | reflexivity | reflexivity |].
    apply spells_nil.
  - apply spells_space; [reflexivity|].
    apply (spells_num ["1"%char]); [discriminate | reflexivity | reflexivity |].
    apply spells_space; [reflexivity|].
    apply spells_sym; [reflexivity|].
    apply spells_space; [reflexivity|]. apply spells_space; [reflexivity|].
    apply (spells_num ["2"%char] []); [discriminate | reflexivity | reflexivity |].
    apply spells_nil.
  - apply (g_expr_add [LNum 1] [LNum 2]).
    + apply g_expr_mul, g_mul_primary, g_primary_num.
    + apply g_mul_primary, g_primary_num.
  - cbn. lia.
  - cbn. lia.
Defined.

(** ** The immediates of the generated code *)

Lemma int_tokens_consumes ts ts' :
  consumes ts ts' -> int_tokens ts -> int_tokens ts'.
Proof.
  intros (pre & -> & _) H. unfold int_tokens in *. now apply Forall_app in H.
Qed.

Lemma token_at_int s ts : Forall (token_at s) ts -> int_tokens ts.
Proof.
  intros H. eapply Forall_impl; [|exact H]. intros t [_ K].
  unfold INT_MIN, INT_MAX in *.
  destruct (kind t); destruct K as [_ K]; rewrite ?K; lia.
Qed.

Section Immediates.

Variable user_input : cstring.

Lemma expr_loop_ints P :
  builds_ints P -> moves P ->
  forall k node ts n rest,
    int_literals node -> int_tokens ts ->
    expr_loop P k node ts = OK (n, rest) -> int_literals n.
Proof.
  intros HP HM. induction k as [|k IH]; intros node ts n rest Hn Ht H;
    [discriminate|].
  rewrite expr_loop_S in H.
  apply bind_OK_inv in H as (plus & ts1 & Hc & H).
  apply consume_OK_inv in Hc as [(-> & t & -> & Hs) | (-> & -> & _)].
  - apply bind_OK_inv in H as (rhs & ts2 & H1 & H).
    assert (Ht1 : int_tokens ts1) by (now inversion Ht).
    eapply IH; [| |exact H].
    + split; [exact Hn | eapply HP; eassumption].
    + eapply int_tokens_consumes; [apply advances_consumes, (HM _ _ _ H1) | exact Ht1].
  - apply bind_OK_inv in H as (minus & ts1 & Hc & H).
    apply consume_OK_inv in Hc as [(-> & t & -> & Hs) | (-> & -> & _)].
    + apply bind_OK_inv in H as (rhs & ts2 & H1 & H).
      assert (Ht1 : int_tokens ts1) by (now inversion Ht).
      eapply IH; [| |exact H].
      * split; [exact Hn | eapply HP; eassumption].
      * eapply int_tokens_consumes; [apply advances_consumes, (HM _ _ _ H1) | exact Ht1].
    + apply ret_OK_inv in H as [<- _]. exact Hn.
Qed.

Lemma mul_loop_ints P :
  builds_ints P -> moves P ->
  forall k node ts n rest,
    int_literals node -> int_tokens ts ->
    mul_loop P k node ts = OK (n, rest) -> int_literals n.
Proof.
  intros HP HM. induction k as [|k IH]; intros node ts n rest Hn Ht H;
    [discriminate|].
  rewrite mul_loop_S in H.
  apply bind_OK_inv in H as (star & ts1 & Hc & H).
  apply consume_OK_inv in Hc as [(-> & t & -> & Hs) | (-> & -> & _)].
  - apply bind_OK_inv in H as (rhs & ts2 & H1 & H).
    assert (Ht1 : int_tokens ts1) by (now inversion Ht).
    eapply IH; [| |exact H].
    + split; [exact Hn | eapply HP; eassumption].
    + eapply int_tokens_consumes; [apply advances_consumes, (HM _ _ _ H1) | exact Ht1].
  - apply bind_OK_inv in H as (slash & ts1 & Hc & H).
    apply consume_OK_inv in Hc as [(-> & t & -> & Hs) | (-> & -> & _)].
    + apply bind_OK_inv in H as (rhs & ts2 & H1 & H).
      assert (Ht1 : int_tokens ts1) by (now inversion Ht).
      eapply IH; [| |exact H].
      * split; [exact Hn | eapply HP; eassumption].
      * eapply int_tokens_consumes; [apply advances_consumes, (HM _ _ _ H1) | exact Ht1].
    + apply ret_OK_inv in H as [<- _]. exact Hn.
Qed.

Lemma parser_ints d : forall k,
  builds_ints (expr user_input d k) /\
  builds_ints (mul user_input d k) /\
  builds_ints (primary user_input d k).
Proof.
  induction d as [|d IH]; intros k;
    [repeat split; intros ts node rest _ H; discriminate|].
  destruct (IH k) as (Ie & Im & Ip).
  destruct (parser_moves user_input d k) as (Me & Mm & Mp).
  repeat split; intros ts node rest Ht H.
  - rewrite expr_S in H. apply bind_OK_inv in H as (n1 & ts1 & H1 & H).
    eapply expr_loop_ints; [exact Im | exact Mm | | | exact H].
    + eapply Im; eassumption.
    + eapply int_tokens_consumes; [apply advances_consumes, (Mm _ _ _ H1) | exact Ht].
  - rewrite mul_S in H. apply bind_OK_inv in H as (n1 & ts1 & H1 & H).
    eapply mul_loop_ints; [exact Ip | exact Mp | | | exact H].
    + eapply Ip; eassumption.
    + eapply int_tokens_consumes; [apply advances_consumes, (Mp _ _ _ H1) | exact Ht].
  - rewrite primary_S in H. apply bind_OK_inv in H as (paren & ts1 & Hc & H).
    apply consume_OK_inv in Hc as [(-> & t & -> & Hs) | (-> & -> & _)].
    + apply bind_OK_inv in H as (n1 & ts2 & H1 & H).
      apply bind_OK_inv in H as (u & ts3 & _ & H).
      apply ret_OK_inv in H as [<- _].
      eapply Ie; [|exact H1]. now inversion Ht.
    + apply bind_OK_inv in H as (v & ts2 & H1 & H).
      apply ret_OK_inv in H as [<- _].
      apply expect_number_OK_inv in H1 as (t & -> & _ & ->).
      cbn. now inversion Ht.
Qed.

End Immediates.

Lemma gen_imm32 node : int_literals node -> Forall imm32 (gen node).
Proof.
  induction node as [v | k lhs IHl rhs IHr]; cbn [int_literals gen].
  - intros H. now repeat constructor.
  - intros [Hl Hr]. specialize (IHl Hl). specialize (IHr Hr).
    destruct k; rewrite ?Forall_app; repeat split; try assumption;
      repeat constructor; unfold INT_MIN, INT_MAX; lia.
Qed.

(** X7. Whatever the input, every [push] with an immediate operand that the
    program prints has an operand within the range of [int], which the
    32-bit immediate of the instruction can hold: the lexer narrows every
    literal to [int] and the parser and the code generator copy it. *)
Theorem immediates_are_ints :
  forall (fuel : nat) (argv : list cstring) out err status,
    main fuel argv = Exits out err status ->
    Forall imm32 out.
Proof.
  intros fuel argv out err status. unfold main.
  destruct (negb _); [intros H; inversion H; constructor|].
  unfold compile, tokenize.
  destruct (tokenize_loop _ fuel _) as [ts| | |] eqn:Et; try discriminate;
    [|intros H; inversion H; constructor].
  destruct (expr _ fuel fuel ts) as [[node rest]| | |] eqn:Ee; try discriminate;
    intros H; inversion H; subst; [|constructor].
  apply tokenize_loop_tokens in Et as [F _]. apply token_at_int in F.
  apply (proj1 (parser_ints _ fuel fuel) _ _ _ F) in Ee.
  repeat (constructor; [exact I|]).
  apply Forall_app. split; [now apply gen_imm32 | now repeat constructor].
Qed.

Lemma immediates_are_ints_witness :
  Forall imm32
    [IntelSyntax; GlobalMain; LabelMain; PushImm (-1); PushImm 1;
     PopRdi; PopRax; AddRaxRdi; PushRax; PopRax; Ret].
Proof.
  apply (immediates_are_ints 40 (cmdline "4294967295+1") _ None 0).
  vm_compute. reflexivity.
Defined.

(** ** What the compiled program computes *)

Lemma returns_program node m :
  returns (Exits ([IntelSyntax; GlobalMain; LabelMain] ++ gen node
                    ++ [PopRax; Ret]) None 0) m
  = eval64 node.
Proof.
  cbn [returns app run step]. rewrite run_app by apply gen_no_ret.
  pose proof (gen_run node m) as H.
  destruct (eval64 node) as [v|].
  - destruct H as (m' & -> & S'). cbn [run step]. rewrite S'. reflexivity.
  - rewrite H. reflexivity.
Qed.

Lemma value_bin_inv (f : Z -> Z -> option Z) a b v :
  match value a, value b with
  | Some x, Some y => f x y
  | _, _ => None
  end = Some v ->
  exists x y, value a = Some x /\ value b = Some y /\ f x y = Some v.
Proof.
  destruct (value a) as [x|]; [|discriminate].
  destruct (value b) as [y|]; [|discriminate].
  intros H. now exists x, y.
Qed.

Lemma eval64_node_of e :
  literals_fit e -> no_overflow e -> eval64 (node_of e) = value e.
Proof.
  induction e as [n | a IHa b IHb | a IHa b IHb | a IHa b IHb | a IHa b IHb];
    cbn [literals_fit no_overflow].
  - intros H _. cbn [node_of eval64 value]. unfold INT_MAX, LONG_MAX in *.
    destruct (n >? 2 ^ 63 - 1) eqn:E; [lia|].
    assert (Hn : int_of_long n = n)
      by (apply int_of_long_fits; unfold INT_MIN, INT_MAX; lia).
    now rewrite !Hn.
  - intros [La Lb] (Na & Nb & v & Hv & Hr). rewrite Hv.
    cbn [value] in Hv.
    apply (value_bin_inv (fun x y => Some (x + y))) in Hv as (x & y & Hx & Hy & Hv).
    injection Hv as <-. cbn [node_of eval64].
    rewrite (IHa La Na), (IHb Lb Nb), Hx, Hy. now rewrite wrap64_fits.
  - intros [La Lb] (Na & Nb & v & Hv & Hr). rewrite Hv.
    cbn [value] in Hv.
    apply (value_bin_inv (fun x y => Some (x - y))) in Hv as (x & y & Hx & Hy & Hv).
    injection Hv as <-. cbn [node_of eval64].
    rewrite (IHa La Na), (IHb Lb Nb), Hx, Hy. now rewrite wrap64_fits.
  - intros [La Lb] (Na & Nb & v & Hv & Hr). rewrite Hv.
    cbn [value] in Hv.
    apply (value_bin_inv (fun x y => Some (x * y))) in Hv as (x & y & Hx & Hy & Hv).
    injection Hv as <-. cbn [node_of eval64].
    rewrite (IHa La Na), (IHb Lb Nb), Hx, Hy. now rewrite wrap64_fits.
  - intros [La Lb] (Na & Nb & v & Hv & Hr). rewrite Hv.
    cbn [value] in Hv.
    apply (value_bin_inv (fun x y => if y =? 0 then None else Some (Z.quot x y)))
      in Hv as (x & y & Hx & Hy & Hv).
    cbn [node_of eval64]. rewrite (IHa La Na), (IHb Lb Nb), Hx, Hy.
    unfold idiv64. destruct (y =? 0); [discriminate|]. injection Hv as <-.
    destruct (Z.quot x y <? - 2 ^ 63) eqn:E1; [apply Z.ltb_lt in E1; lia|].
    destruct (2 ^ 63 - 1 <? Z.quot x y) eqn:E2; [apply Z.ltb_lt in E2; lia|].
    reflexivity.
Qed.

(** X8. The compiler is correct from end to end on expressions that stay
    within the machine's integers: for a well-formed input whose literals
    are at most [INT_MAX] and whose subexpressions all have a value that
    fits 64 bits (so no division by zero), the printed program, run on the
    machine from any state, returns the mathematical value of the
    expression. *)
Theorem compiled_program_returns_value :
  forall (prog user_input : cstring) (e : Expr) (fuel : nat) (m : Machine),
    well_formed user_input e ->
    literals_fit e ->
    no_overflow e ->
    (3 * length user_input + 6 <= fuel)%nat ->
    returns (main fuel [prog; user_input]) m = value e.
Proof.
  intros prog user_input e fuel m Hwf Hfit Hno Hfuel.
  destruct (parse_well_formed user_input e fuel Hwf Hfuel) as (ts & Et & Ee).
  unfold main. cbn [length Nat.eqb negb nth]. unfold compile. rewrite Et, Ee.
  rewrite returns_program. now apply eval64_node_of.
Qed.

Lemma compiled_program_returns_value_witness :
  returns (main 27 (cmdline "(2+3)*4")) (mkMachine 0 0 0 []) = Some 20.
Proof.
  apply (compiled_program_returns_value (list_ascii_of_string "9cc")
           (list_ascii_of_string "(2+3)*4")
           (EMul (EAdd (ELit 2) (ELit 3)) (ELit 4)) 27 (mkMachine 0 0 0 [])).
  - exists [LSym "("; LNum 2; LSym "+"; LNum 3; LSym ")"; LSym "*"; LNum 4].
    split.
    + apply spells_sym; [reflexivity|].
      apply (spells_num ["2"%char]); [discriminate | reflexivity | reflexivity |].
      apply spells_sym; [reflexivity|].
      apply (spells_num ["3"%char]); [discriminate | reflexivity | reflexivity |].
      apply spells_sym; [reflexivity|]. apply spells_sym; [reflexivity|].
      apply (spells_num ["4"%char] []); [discriminate | reflexivity | reflexivity |].
      apply spells_nil.
    + apply g_expr_mul.
      apply (g_mul_mul [LSym "("; LNum 2; LSym "+"; LNum 3; LSym ")"] [LNum 4]).
      * apply g_mul_primary.
        apply (g_primary_paren [LNum 2; LSym "+"; LNum 3]).
        apply (g_expr_add [LNum 2] [LNum 3]).
        -- apply g_expr_mul, g_mul_primary, g_primary_num.
        -- apply g_mul_primary, g_primary_num.
      * apply g_primary_num.
  - cbn. unfold INT_MAX. lia.
  - cbn. repeat split; eexists; (split; [reflexivity | lia]).
  - cbn. lia.
Defined.

(** ** Wrap-around *)

Lemma wrap64_shift z q : wrap64 (z + q * 2 ^ 64) = wrap64 z.
Proof.
  unfold wrap64. replace (z + q * 2 ^ 64 + 2 ^ 63) with (z + 2 ^ 63 + q * 2 ^ 64) by lia.
  now rewrite Z.mod_add by lia.
Qed.

Lemma wrap64_repr z : exists q, wrap64 z = z + q * 2 ^ 64.
Proof.
  exists (- ((z + 2 ^ 63) / 2 ^ 64)). unfold wrap64.
  pose proof (Z.div_mod (z + 2 ^ 63) (2 ^ 64) ltac:(lia)). lia.
Qed.

Lemma wrap64_add a b : wrap64 (wrap64 a + wrap64 b) = wrap64 (a + b).
Proof.
  destruct (wrap64_repr a) as (p & ->). destruct (wrap64_repr b) as (q & ->).
  replace (a + p * 2 ^ 64 + (b + q * 2 ^ 64)) with (a + b + (p + q) * 2 ^ 64) by lia.
  apply wrap64_shift.
Qed.

Lemma wrap64_sub a b : wrap64 (wrap64 a - wrap64 b) = wrap64 (a - b).
Proof.
  destruct (wrap64_repr a) as (p & ->). destruct (wrap64_repr b) as (q & ->).
  replace (a + p * 2 ^ 64 - (b + q * 2 ^ 64)) with (a - b + (p - q) * 2 ^ 64) by lia.
  apply wrap64_shift.
Qed.

Lemma wrap64_mul a b : wrap64 (wrap64 a * wrap64 b) = wrap64 (a * b).
Proof.
  destruct (wrap64_repr a) as (p & ->). destruct (wrap64_repr b) as (q & ->).
  replace ((a + p * 2 ^ 64) * (b + q * 2 ^ 64))
    with (a * b + (a * q + p * b + p * q * 2 ^ 64) * 2 ^ 64) by ring.
  apply wrap64_shift.
Qed.

Lemma eval64_wraps node :
  division_free node -> int_literals node ->
  exists v, eval node = Some v /\ eval64 node = Some (wrap64 v).
Proof.
  induction node as [n | k lhs IHl rhs IHr]; cbn [division_free int_literals].
  - intros _ H. exists n. split; [reflexivity|]. cbn [eval64].
    rewrite int_of_long_fits by assumption.
    rewrite wrap64_fits; [reflexivity | unfold INT_MIN, INT_MAX in H; lia].
  - intros (Hk & Dl & Dr) (Il & Ir).
    destruct (IHl Dl Il) as (a & Ea & Wa). destruct (IHr Dr Ir) as (b & Eb & Wb).
    destruct k; try congruence; cbn [eval eval64]; rewrite ?Ea, ?Eb, ?Wa, ?Wb.
    + exists (a + b). now rewrite wrap64_add.
    + exists (a - b). now rewrite wrap64_sub.
    + exists (a * b). now rewrite wrap64_mul.
    + exists 0. split; reflexivity.
Qed.

(** X9. Without division the generated code never faults and computes
    modulo 2^64: the program of a tree without [ND_DIV] node, whose literals
    are [int], returns the exact value of the tree reduced to 64 bits, two's
    complement. *)
Theorem division_free_code_wraps :
  forall (node : Node) (m : Machine),
    division_free node ->
    int_literals node ->
    exists v,
      eval node = Some v /\
      returns (Exits ([IntelSyntax; GlobalMain; LabelMain] ++ gen node
                        ++ [PopRax; Ret]) None 0) m
      = Some (wrap64 v).
Proof.
  intros node m D I. destruct (eval64_wraps node D I) as (v & E & W).
  exists v. split; [exact E|]. now rewrite returns_program.
Qed.

Lemma division_free_code_wraps_witness :
  exists v,
    eval (BinNode ND_MUL (BinNode ND_MUL (NumNode 2147483647) (NumNode 2147483647))
            (BinNode ND_MUL (NumNode 2147483647) (NumNode 2147483647))) = Some v /\
    returns (Exits ([IntelSyntax; GlobalMain; LabelMain]
                      ++ gen (BinNode ND_MUL
                                (BinNode ND_MUL (NumNode 2147483647) (NumNode 2147483647))
                                (BinNode ND_MUL (NumNode 2147483647) (NumNode 2147483647)))
                      ++ [PopRax; Ret]) None 0) (mkMachine 0 0 0 [])
    = Some (wrap64 v).
Proof.
  apply division_free_code_wraps.
  - cbn. repeat split; discriminate.
  - cbn. unfold INT_MIN, INT_MAX. lia.
Defined.

(** X10. A program the compiler prints leaves the stack as it found it: if
    its run reaches [ret], the stack is then exactly the stack at entry (so
    [ret] finds the return address of the caller) and [rax] holds the value
    of the tree the program was generated from. *)
Theorem program_restores_stack :
  forall (fuel : nat) (argv : list cstring) out (m m' : Machine),
    main fuel argv = Exits out None 0 ->
    run out m = Some m' ->
    stack m' = stack m /\
    exists node,
      out = [IntelSyntax; GlobalMain; LabelMain] ++ gen node ++ [PopRax; Ret] /\
      eval64 node = Some (rax m').
Proof.
  intros fuel argv out m m'. unfold main.
  destruct (negb _); [discriminate|]. unfold compile.
  destruct (tokenize _ fuel) as [ts| | |]; try discriminate.
  destruct (expr _ fuel fuel ts) as [[node rest]| | |]; try discriminate.
  intros H; inversion H; subst. clear H.
  cbn [app run step]. rewrite run_app by apply gen_no_ret.
  pose proof (gen_run node m) as G.
  destruct (eval64 node) as [v|] eqn:Ev.
  - destruct G as (m1 & -> & S1). cbn [run step]. rewrite S1.
    intros H; injection H as <-. cbn [stack rax]. split; [reflexivity|].
    now exists node.
  - rewrite G. discriminate.
Qed.

Lemma program_restores_stack_witness :
  stack (mkMachine 5 2 1 [99]) = stack (mkMachine 0 0 0 [99]) /\
  exists node,
    [IntelSyntax; GlobalMain; LabelMain; PushImm 11; PushImm 2;
     PopRdi; PopRax; Cqo; IdivRdi; PushRax; PopRax; Ret]
    = [IntelSyntax; GlobalMain; LabelMain] ++ gen node ++ [PopRax; Ret] /\
    eval64 node = Some (rax (mkMachine 5 2 1 [99])).
Proof.
  apply (program_restores_stack 20 (cmdline "11/2") _ (mkMachine 0 0 0 [99])).
  - vm_compute. reflexivity.
  - vm_compute. reflexivity.
Defined.
